(** * City service: record store, query predicates, geometry and area jobs

    A shallow embedding of the sources of the service:
    - [store.js]: [FileBasedStore.filter], [matchesKeyQuery], [where];
    - [geometry-utils.js]: [distanceBetweenCoord];
    - the server module: the [/area] and [/area-result/:areaJobID] handlers,
      the [areaProcessingJobs] registry and [scheduleAreaProcessingJob].

    JavaScript numbers are IEEE 754 binary64 values, modelled by Rocq's
    primitive floats; the job registry (a [Map]) and the parsed records
    (JSON objects) are finite maps keyed by strings. *)

From Stdlib Require Import ZArith Floats Ascii String.
From stdpp Require Import gmap strings list pretty.

Set Warnings "-register-all,-inexact-float".

(** ** JavaScript values and the runtime operations the sources rely on *)

Module JS.

(** The values that occur in the program: what [JSON.parse] produces, plus
    [undefined] (the result of reading a missing property). *)
Inductive value :=
| VUndefined
| VNull
| VBool (b : bool)
| VNum (n : float)
| VStr (s : string)
| VArr (elems : list value)
| VObj (props : gmap string value).

(** A parsed JSON object. *)
Abbreviation object := (gmap string value).

(** [obj[key]] for a [key] that [Object.prototype] has no member for:
    reading an own property; a missing one reads as [undefined]. *)
Definition prop (obj : object) (key : string) : value :=
  default VUndefined (obj !! key).

(** The members of [Object.prototype].  A parsed object inherits them: for
    these keys [obj[key]] finds a function (for [__proto__], the prototype)
    where the object has no property of its own, and [prop] does not say what
    is read. *)
Definition Object_prototype_names : list string :=
  ["constructor"; "__defineGetter__"; "__defineSetter__"; "hasOwnProperty";
   "__lookupGetter__"; "__lookupSetter__"; "isPrototypeOf";
   "propertyIsEnumerable"; "toString"; "valueOf"; "__proto__";
   "toLocaleString"].

Definition inherited_key (key : string) : bool :=
  existsb (String.eqb key) Object_prototype_names.

(** [v == null], which holds of [null] and [undefined] only. *)
Definition is_nullish (v : value) : bool :=
  match v with
  | VUndefined | VNull => true
  | _ => false
  end.

Definition is_object (v : value) : bool :=
  match v with
  | VArr _ | VObj _ => true
  | _ => false
  end.

(** [Array.isArray(v)] *)
Definition Array_isArray (v : value) : bool :=
  match v with
  | VArr _ => true
  | _ => false
  end.

(** What the engine supplies and the sources only call: the
    implementation-approximated functions of [Math], and the two conversions
    between strings and numbers that the coercions of [==] and of the
    arithmetic operators go through. *)
Class Runtime := {
  Math_sin : float → float;
  Math_cos : float → float;
  Math_atan2 : float → float → float;
  StringToNumber : string → float;
  NumberToString : float → string
}.

(** [Math.PI], the binary64 value nearest to pi. *)
Definition Math_PI : float := 0x1.921fb54442d18p+1%float.

(** [Math.sqrt]: the correctly rounded IEEE square root. *)
Definition Math_sqrt (x : float) : float := PrimFloat.sqrt x.

Section Coercions.
Context {RT : Runtime}.

Definition join (sep : string) (parts : list string) : string :=
  match parts with
  | [] => EmptyString
  | p :: ps => fold_left (fun acc q => acc +:+ sep +:+ q) ps p
  end.

(** [String(v)]; an array prints as its elements joined by commas, with
    [null] and [undefined] elements printed as the empty string. *)
Fixpoint ToString (v : value) : string :=
  match v with
  | VUndefined => "undefined"
  | VNull => "null"
  | VBool true => "true"
  | VBool false => "false"
  | VNum n => NumberToString n
  | VStr s => s
  | VArr elems =>
      join "," (map (fun e => if is_nullish e then EmptyString else ToString e) elems)
  | VObj _ => "[object Object]"
  end.

(** [ToPrimitive]: objects and arrays of parsed JSON convert through
    [toString]. *)
Definition ToPrimitive (v : value) : value :=
  if is_object v then VStr (ToString v) else v.

(** [Number(v)], the coercion applied by the arithmetic operators. *)
Definition ToNumber (v : value) : float :=
  match v with
  | VUndefined => nan
  | VNull => 0
  | VBool true => 1
  | VBool false => 0
  | VNum n => n
  | VStr s => StringToNumber s
  | VArr _ | VObj _ => StringToNumber (ToString v)
  end%float.

(** [x === y].  Two objects are equal only when they are the same reference;
    every comparison of this program has its operands from different parses
    of the file or from a fresh literal, so two objects never are. *)
Definition IsStrictlyEqual (x y : value) : bool :=
  match x, y with
  | VUndefined, VUndefined => true
  | VNull, VNull => true
  | VBool a, VBool b => Bool.eqb a b
  | VNum a, VNum b => (a =? b)%float
  | VStr a, VStr b => String.eqb a b
  | _, _ => false
  end.

(** [x == y] on primitives. *)
Definition loose_primitive (x y : value) : bool :=
  match x, y with
  | (VUndefined | VNull), (VUndefined | VNull) => true
  | (VUndefined | VNull), _ => false
  | _, (VUndefined | VNull) => false
  | VStr a, VStr b => String.eqb a b
  | _, _ => (ToNumber x =? ToNumber y)%float
  end.

(** [x == y] (IsLooselyEqual). *)
Definition IsLooselyEqual (x y : value) : bool :=
  if is_object x && is_object y then false
  else loose_primitive (ToPrimitive x) (ToPrimitive y).

(** SameValueZero, the comparison of [Array.prototype.includes]: strict
    equality, except that [NaN] equals itself. *)
Definition SameValueZero (x y : value) : bool :=
  match x, y with
  | VNum a, VNum b => (a =? b)%float || (is_nan a && is_nan b)
  | _, _ => IsStrictlyEqual x y
  end.

(** [arr.includes(searchElement)] *)
Definition Array_includes (arr : list value) (searchElement : value) : bool :=
  existsb (fun e => SameValueZero e searchElement) arr.

End Coercions.

(** *** [parseInt] with no radix argument *)

Definition is_whitespace (c : ascii) : bool :=
  match nat_of_ascii c with
  | 9 | 10 | 11 | 12 | 13 | 32 => true
  | _ => false
  end.

Fixpoint trim_start (s : string) : string :=
  match s with
  | String c rest => if is_whitespace c then trim_start rest else s
  | EmptyString => s
  end.

(** The value of a character as a digit, letters counting from ten. *)
Definition digit_value (c : ascii) : option Z :=
  let n := Z.of_nat (nat_of_ascii c) in
  if (48 <=? n)%Z && (n <=? 57)%Z then Some (n - 48)%Z
  else if (97 <=? n)%Z && (n <=? 122)%Z then Some (n - 87)%Z
  else if (65 <=? n)%Z && (n <=? 90)%Z then Some (n - 55)%Z
  else None.

(** The integer written by the longest prefix of radix-[R] digits; [None]
    when that prefix is empty. *)
Fixpoint digits_prefix (R : Z) (s : string) (acc : option Z) : option Z :=
  match s with
  | String c rest =>
      match digit_value c with
      | Some d =>
          if (d <? R)%Z then digits_prefix R rest (Some (default 0%Z acc * R + d)%Z)
          else acc
      | None => acc
      end
  | EmptyString => acc
  end.

(** The Number value of a mathematical integer: round to nearest, ties to
    even. *)
Definition Z_to_number (z : Z) : float :=
  SF2Prim (binary_normalize prec emax z 0 false).

Definition parseInt (input : string) : float :=
  let trimmed := trim_start input in
  let '(negative, unsigned) :=
    match trimmed with
    | String "-"%char rest => (true, rest)
    | String "+"%char rest => (false, rest)
    | _ => (false, trimmed)
    end in
  let '(R, digits) :=
    match unsigned with
    | String "0"%char (String "x"%char rest) => (16%Z, rest)
    | String "0"%char (String "X"%char rest) => (16%Z, rest)
    | _ => (10%Z, unsigned)
    end in
  match digits_prefix R digits None with
  | None => nan
  | Some Z0 => if negative then (-0)%float else 0%float
  | Some mathInt => Z_to_number (if negative then - mathInt else mathInt)
  end.

End JS.

Export JS.

(** ** Binary64 numbers as the specification of the arithmetic sees them *)

Module Binary64.

(** Zero, or finite with an exponent of at most [E]. *)
Definition SF_below (E : Z) (x : spec_float) : Prop :=
  match x with
  | S754_zero _ => True
  | S754_finite _ _ e => (e <= E)%Z
  | _ => False
  end.

Definition SF_sign (x : spec_float) : bool :=
  match x with
  | S754_zero s | S754_infinity s | S754_finite s _ _ => s
  | S754_nan => false
  end.

End Binary64.

Export Binary64.

(** ** geometry-utils.js *)

Module Geometry.
Section Geometry.
Context {RT : Runtime}.
Local Open Scope float_scope.

(** The argument objects [{ lat, lon }]. *)
Record point := { lat : value; lon : value }.

Definition EARTH_RADIUS_APPROX : float := 6371000.

(** The great-circle distance between two points on a sphere, in meters, by
    the haversine formula.  The arithmetic operators coerce their operands
    with [ToNumber]. *)
Definition distanceBetweenCoord (p1 p2 : point) : float :=
  let lat1Rad := ToNumber (lat p1) * Math_PI / 180 in
  let lat2Rad := ToNumber (lat p2) * Math_PI / 180 in
  let deltaLat := (ToNumber (lat p2) - ToNumber (lat p1)) * Math_PI / 180 in
  let deltaLon := (ToNumber (lon p2) - ToNumber (lon p1)) * Math_PI / 180 in
  let a := Math_sin (deltaLat / 2) * Math_sin (deltaLat / 2) +
           Math_cos lat1Rad * Math_cos lat2Rad *
           Math_sin (deltaLon / 2) * Math_sin (deltaLon / 2) in
  let c := 2 * Math_atan2 (Math_sqrt a) (Math_sqrt (1 - a)) in
  EARTH_RADIUS_APPROX * c.

(** What the proofs about the distance assume of the engine's [Math]: the
    sine is odd and maps zero to zero, the cosine of a finite number lies
    between -1 and 1, and [Math.atan2(0, 1)] is zero. *)
Record Math_conforms : Prop := {
  sin_odd : ∀ x, Math_sin (- x) = - Math_sin x;
  sin_zero : Math_sin 0 = 0;
  cos_range : ∀ x, is_finite x = true → (abs (Math_cos x) <=? 1) = true;
  atan2_zero : Math_atan2 0 1 = 0
}.

(** A number of degrees whose conversion to radians is a finite number. *)
Definition finite_radians (degrees : float) : bool :=
  is_finite (degrees * Math_PI / 180).

End Geometry.
End Geometry.

Export Geometry.

(** ** store.js *)

Module Store.

(** The elements of the top-level array of the backing file. *)
Abbreviation record := (gmap string value).

Abbreviation error := string (only parsing).

(** What a promise settles to. *)
Inductive outcome (A : Type) :=
| Resolved (result : A)
| Rejected (err : error).
Arguments Resolved {A} result.
Arguments Rejected {A} err.

(** The backing file as the parsing pipeline sees it: the records it
    delivers, in file order, and the error that ends the stream when the read
    or the parse fails.  A file that holds one JSON array of record objects
    delivers all of them and no error. *)
Record backing_file := {
  delivered : list record;
  failure : option error
}.

(** The events of the pipeline [createReadStream |> parser |> streamArray]. *)
Inductive stream_event :=
| ev_data (item : record)
| ev_end
| ev_error (err : error).

Definition pipeline_events (file : backing_file) : list stream_event :=
  map ev_data (delivered file) ++
  [match failure file with
   | None => ev_end
   | Some err => ev_error err
   end].

(** The state a call of [filter] builds up: the local array [result] and the
    promise, which settles once. *)
Record collector := {
  result : list record;
  promise : option (outcome (list record))
}.

Definition settle (c : collector) (o : outcome (list record)) : collector :=
  match promise c with
  | None => {| result := result c; promise := Some o |}
  | Some _ => c
  end.

(** The last stage of the chain keeps an item when the matcher accepts it,
    and the three handlers of the pipeline:
    [on('data')] pushes, [on('end')] resolves, [on('error')] rejects. *)
Definition on_event (matcher : record → bool) (c : collector) (ev : stream_event)
  : collector :=
  match ev with
  | ev_data item =>
      if matcher item
      then {| result := result c ++ [item]; promise := promise c |}
      else c
  | ev_end => settle c (Resolved (result c))
  | ev_error err => settle c (Rejected err)
  end.

(** [FileBasedStore.filter]; [None] would be a promise that never settles. *)
Definition filter (file : backing_file) (matcher : record → bool)
  : option (outcome (list record)) :=
  promise (fold_left (on_event matcher) (pipeline_events file)
                     {| result := []; promise := None |}).

(** The value of one key of a key query:
    [{ $equals: _, $includes: _, $in: _ }], an absent operator reading as
    [undefined]. *)
Record key_filter := {
  op_equals : value;
  op_includes : value;
  op_in : value
}.

Abbreviation key_query := (gmap string key_filter).

(** The three literals [{ $equals: v }], [{ $includes: v }], [{ $in: v }]. *)
Definition equals (v : value) : key_filter :=
  {| op_equals := v; op_includes := VUndefined; op_in := VUndefined |}.
Definition includes (v : value) : key_filter :=
  {| op_equals := VUndefined; op_includes := v; op_in := VUndefined |}.
Definition member_of (v : value) : key_filter :=
  {| op_equals := VUndefined; op_includes := VUndefined; op_in := v |}.

Section Matching.
Context {RT : Runtime}.

(** One turn of the loop of [matchesKeyQuery]: [false] stands for the early
    [return false], [true] for falling through to the next key. *)
Definition check_key (obj : record) (currentKey : string) (f : key_filter) : bool :=
  if is_nullish (prop obj currentKey) then false
  else if negb (is_nullish (op_equals f)) then
    if negb (IsLooselyEqual (prop obj currentKey) (op_equals f)) then false else true
  else if negb (is_nullish (op_includes f)) then
    if negb (Array_isArray (prop obj currentKey)) ||
       negb (match prop obj currentKey with
             | VArr elems => Array_includes elems (op_includes f)
             | _ => false
             end)
    then false else true
  else if negb (is_nullish (op_in f)) then
    if negb (Array_isArray (op_in f)) ||
       negb (match op_in f with
             | VArr elems => Array_includes elems (prop obj currentKey)
             | _ => false
             end)
    then false else true
  else true.

Fixpoint check_keys (obj : record) (keysToBeChecked : list (string * key_filter)) : bool :=
  match keysToBeChecked with
  | [] => true
  | (currentKey, f) :: rest =>
      if check_key obj currentKey f then check_keys obj rest else false
  end.

(** [matchesKeyQuery(obj, keyQuery)]; a missing query is replaced by [{}]. *)
Definition matchesKeyQuery (obj : record) (keyQuery : option key_query) : bool :=
  check_keys obj (map_to_list (default ∅ keyQuery)).

(** [where(filterQuery)] *)
Definition where_ (filterQuery : option key_query) : record → bool :=
  fun item => matchesKeyQuery item filterQuery.

(** *** The matching rule in the words of the specification

    A field carries a directive when the operand of its operator is neither
    [null] nor [undefined].  One directive is read per field: the first one
    carried, in the order equals, includes, memberOf. *)
Inductive directive :=
| directive_equals (operand : value)
| directive_includes (operand : value)
| directive_memberOf (operand : value).

Definition selected_directive (f : key_filter) : option directive :=
  if negb (is_nullish (op_equals f)) then Some (directive_equals (op_equals f))
  else if negb (is_nullish (op_includes f)) then Some (directive_includes (op_includes f))
  else if negb (is_nullish (op_in f)) then Some (directive_memberOf (op_in f))
  else None.

(** equals: the field value equals the operand, loosely; includes: the field
    value is a sequence that contains the operand; memberOf: the operand is a
    sequence that contains the field value. *)
Definition directive_succeeds (fieldValue : value) (d : directive) : bool :=
  match d with
  | directive_equals operand => IsLooselyEqual fieldValue operand
  | directive_includes operand =>
      match fieldValue with
      | VArr elems => Array_includes elems operand
      | _ => false
      end
  | directive_memberOf operand =>
      match operand with
      | VArr elems => Array_includes elems fieldValue
      | _ => false
      end
  end.

(** A record matches when, for every queried field, its value is present
    and the directive read for the field succeeds. *)
Definition record_matches (obj : record) (q : key_query) : Prop :=
  ∀ key f, q !! key = Some f →
    is_nullish (prop obj key) = false ∧
    ∀ d, selected_directive f = Some d → directive_succeeds (prop obj key) d = true.

(** *** The matching rule with every written directive counted

    The rule read without a condition on the operand: a field carries the
    directive that is written for it, whatever its operand, [null] included;
    only an operator that is not written (it reads [undefined]) is no
    directive.  The priority order is the same. *)
Definition is_undefined (v : value) : bool :=
  match v with
  | VUndefined => true
  | _ => false
  end.

Definition written_directive (f : key_filter) : option directive :=
  if negb (is_undefined (op_equals f)) then Some (directive_equals (op_equals f))
  else if negb (is_undefined (op_includes f)) then Some (directive_includes (op_includes f))
  else if negb (is_undefined (op_in f)) then Some (directive_memberOf (op_in f))
  else None.

Definition record_matches_as_written (obj : record) (q : key_query) : Prop :=
  ∀ key f, q !! key = Some f →
    is_nullish (prop obj key) = false ∧
    ∀ d, written_directive f = Some d → directive_succeeds (prop obj key) d = true.

End Matching.
End Store.

Export Store.

(** ** The server module: the area jobs *)

Module Server.

Definition host : string := "127.0.0.1".
Definition port : string := "8080".
Definition endpoint : string := "http://" +:+ host +:+ ":" +:+ port.

(** The values of the registry:
    [areaProcessingJobs : Map<jobID, {result: [...], isDone: boolean}>]. *)
Record Job := {
  result : list record;
  isDone : bool
}.

(** What a handler sends: [respondWithCode(statusCode, res)], a plain-text
    body with the status text, or [res.status(_).json(_)]. *)
Inductive payload :=
| resultsUrl (url : string)
| cities (found : list record).

Inductive response :=
| respondWithCode (statusCode : nat)
| json (status : nat) (body : payload).

(** The code that waits for a later turn of the event loop: the rest of the
    [/area] handler after its [await], the rest of
    [scheduleAreaProcessingJob] after its [await], and the callback given to
    [setTimeout]. *)
Inductive task :=
| AwaitLookup (fromID : string) (distance : float) (jobID : string)
| AwaitScan (fromCity : record) (distance : float) (jobID : string)
| ExpiryTimer (jobID : string).

Record server := {
  areaProcessingJobs : gmap string Job;
  pending : list task
}.

Definition initial : server := {| areaProcessingJobs := ∅; pending := [] |}.

(** The identifier hardcoded for the initial job. *)
Definition FIRST_JOB_ID : string := "2152f96f-50c7-4d76-9e18-f7033bd14428".

Definition jobs_set (jobID : string) (j : Job) (s : server) : server :=
  {| areaProcessingJobs := <[jobID := j]> (areaProcessingJobs s);
     pending := pending s |}.

Definition jobs_delete (jobID : string) (s : server) : server :=
  {| areaProcessingJobs := delete jobID (areaProcessingJobs s);
     pending := pending s |}.

Definition suspend (t : task) (s : server) : server :=
  {| areaProcessingJobs := areaProcessingJobs s;
     pending := pending s ++ [t] |}.

Section Handlers.
Context {RT : Runtime}.

(** [new FileBasedStore('./addresses.json')]: the file does not change while
    the process runs. *)
Variable store : backing_file.

(** The custom matcher of [scheduleAreaProcessingJob]: items other than the
    origin that are within the given distance. *)
Definition area_matcher (fromCity : record) (distance : float) : record → bool :=
  fun item =>
    negb (IsLooselyEqual (prop item "guid") (prop fromCity "guid")) &&
    (distanceBetweenCoord
       {| lat := prop fromCity "latitude"; lon := prop fromCity "longitude" |}
       {| lat := prop item "latitude"; lon := prop item "longitude" |}
     <? distance)%float.

(** [scheduleAreaProcessingJob] up to its [await]: the expiry timer of five
    minutes is set and the scan of the store is started. *)
Definition scheduleAreaProcessingJob
  (fromCity : record) (distance : float) (jobID : string) (s : server) : server :=
  suspend (AwaitScan fromCity distance jobID) (suspend (ExpiryTimer jobID) s).

(** [{ guid: { $equals: fromID } }] *)
Definition guid_equals (fromID : string) : key_query :=
  {[ "guid" := equals (VStr fromID) ]}.

(** [GET /area] up to its [await].  [fromParam] and [distanceParam] are the
    results of [searchParams.get], [None] for [null]; [randomUUID] is what
    [crypto.randomUUID()] returns if it is called. *)
Definition area (fromParam distanceParam : option string) (randomUUID : string)
  (s : server) : response * server :=
  let distance :=
    parseInt (match distanceParam with Some d => d | None => "null" end) in
  match fromParam with
  | None => (respondWithCode 400, s)
  | Some fromID =>
      if (distance =? nan)%float then (respondWithCode 400, s)
      else
        let jobID :=
          if Nat.eqb (size (areaProcessingJobs s)) 0 then FIRST_JOB_ID
          else randomUUID in
        let s := jobs_set jobID {| result := []; isDone := false |} s in
        (json 202 (resultsUrl (endpoint +:+ "/area-result/" +:+ jobID)),
         suspend (AwaitLookup fromID distance jobID) s)
  end.

(** [GET /area-result/:areaJobID] *)
Definition area_result (areaJobID : string) (s : server) : response :=
  match areaProcessingJobs s !! areaJobID with
  | None => respondWithCode 404
  | Some job =>
      if negb (isDone job) then respondWithCode 202
      else json 200 (cities (result job))
  end.

(** A waiting piece of code runs.  The two [await]s continue with what
    [store.filter] settled to: normally when it resolved, in the [catch]
    block when it rejected. *)
Definition resume (t : task) (s : server) : server :=
  match t with
  | AwaitLookup fromID distance jobID =>
      match filter store (where_ (Some (guid_equals fromID))) with
      | Some (Resolved found) =>
          match List.find (fun city => IsStrictlyEqual (prop city "guid") (VStr fromID))
                          found with
          | Some fromCity =>
              scheduleAreaProcessingJob fromCity (distance * 1000)%float jobID s
          | None => s
          end
      | Some (Rejected err) => jobs_delete jobID s
      | None => suspend t s
      end
  | AwaitScan fromCity distance jobID =>
      match filter store (area_matcher fromCity distance) with
      | Some (Resolved found) =>
          jobs_set jobID {| result := found; isDone := true |} s
      | Some (Rejected err) => jobs_delete jobID s
      | None => suspend t s
      end
  | ExpiryTimer jobID => jobs_delete jobID s
  end.

(** What happens to the server: a request arrives, or the event loop runs
    the waiting piece of code at position [i]. *)
Inductive input :=
| GET_area (fromParam distanceParam : option string) (randomUUID : string)
| GET_area_result (areaJobID : string)
| Resume (i : nat).

Definition step (s : server) (i : input) : option response * server :=
  match i with
  | GET_area fromParam distanceParam randomUUID =>
      let '(res, s') := area fromParam distanceParam randomUUID s in (Some res, s')
  | GET_area_result areaJobID => (Some (area_result areaJobID s), s)
  | Resume i =>
      match pending s !! i with
      | Some t =>
          (None, resume t {| areaProcessingJobs := areaProcessingJobs s;
                             pending := delete i (pending s) |})
      | None => (None, s)
      end
  end.

(** The server after a sequence of inputs, and the responses it sent. *)
Fixpoint run (s : server) (inputs : list input) : list response * server :=
  match inputs with
  | [] => ([], s)
  | i :: rest =>
      let '(res, s') := step s i in
      let '(sent, s'') := run s' rest in
      (match res with Some r => r :: sent | None => sent end, s'')
  end.

End Handlers.
End Server.

Export Server.

(** ** What the remaining properties assume of [Math.atan2], and whose job a
    waiting piece of code works on *)

Module Jobs.

(** [Math.atan2(y, x)] is not below zero when the sign bit of [y] is clear,
    that is when [y] is a positive number, the positive zero or [NaN]. *)
Definition atan2_not_negative {RT : Runtime} : Prop :=
  ∀ y x, SF_sign (Prim2SF y) = false → (Math_atan2 y x <? 0)%float = false.

(** The [jobID] in the closure of a waiting piece of code. *)
Definition task_job (t : task) : string :=
  match t with
  | AwaitLookup _ _ jobID => jobID
  | AwaitScan _ _ jobID => jobID
  | ExpiryTimer jobID => jobID
  end.

(** What holds of every registered job: while it is not done its result is
    empty, and its result holds records of the file only. *)
Definition job_sound (store : backing_file) (j : Job) : Prop :=
  (isDone j = false → result j = []) ∧
  ∀ city, In city (result j) → In city (delivered store).

End Jobs.

Export Jobs.

(** ** The server module: authentication and the read-only routes *)

Module Routes.

(** [Number.prototype.toFixed], which the engine supplies. *)
Class Formatting := {
  Number_toFixed : float → nat → string
}.

(** The header every request has to carry:
    [`bearer ${process.env.TEST_TOKEN}`]; a variable that is not set prints
    as [undefined]. *)
Definition expected_authorization (TEST_TOKEN : option string) : string :=
  "bearer " +:+ match TEST_TOKEN with Some t => t | None => "undefined" end.

(** The authentication middleware: [true] stands for [next()], [false] for
    the 401.  [authorization] is [req.get('Authorization')], [None] when the
    header is absent. *)
Definition authenticated (TEST_TOKEN : option string) (authorization : option string) : bool :=
  match authorization with
  | Some header => String.eqb header (expected_authorization TEST_TOKEN)
  | None => false
  end.

(** The last statement of the module: the server listens only when the
    token is set and not empty. *)
Definition listens (TEST_TOKEN : option string) : bool :=
  match TEST_TOKEN with
  | None => false
  | Some t => negb (Nat.eqb (String.length t) 0)
  end.

(** What [GET /distance] sends beside the plain status codes:
    [{ distance, unit, from, to }]. *)
Inductive reply :=
| reply_of (r : response)
| distance_json (distance : float) (unit : string) (from to : record).

(** [{ tags: { $includes: tagFilter },
       ...(isActiveFilter != null && { isActive: { $equals: isActiveFilter == "true" } }) }] *)
Definition cities_by_tag_query (tagFilter : string) (isActiveFilter : option string)
  : key_query :=
  <["tags" := includes (VStr tagFilter)]>
    match isActiveFilter with
    | Some a => {[ "isActive" := equals (VBool (String.eqb a "true")) ]}
    | None => ∅
    end.

(** [{ guid: { $in: [fromID, toID] } }] *)
Definition distance_query (fromID toID : string) : key_query :=
  {[ "guid" := member_of (VArr [VStr fromID; VStr toID]) ]}.

Section ReadOnly.
Context {RT : Runtime} {FMT : Formatting}.
Variable store : backing_file.

(** [GET /cities-by-tag]: the response the handler sends once
    [store.filter] has settled; [None] if it never does.  The parameters are
    the results of [searchParams.get]. *)
Definition cities_by_tag (tagParam isActiveParam : option string) : option response :=
  match tagParam with
  | None => Some (respondWithCode 400)
  | Some tagFilter =>
      match filter store (where_ (Some (cities_by_tag_query tagFilter isActiveParam))) with
      | Some (Resolved found) => Some (json 200 (cities found))
      | Some (Rejected err) => Some (respondWithCode 500)
      | None => None
      end
  end.

(** [+(meters / 1000).toFixed(2)] *)
Definition kilometers (meters : float) : float :=
  StringToNumber (Number_toFixed (meters / 1000)%float 2).

(** [GET /distance] *)
Definition distance (fromParam toParam : option string) : option reply :=
  match fromParam, toParam with
  | Some fromID, Some toID =>
      match filter store (where_ (Some (distance_query fromID toID))) with
      | Some (Resolved found) =>
          let fromCity :=
            List.find (λ city, IsStrictlyEqual (prop city "guid") (VStr fromID)) found in
          let toCity :=
            List.find (λ city, IsStrictlyEqual (prop city "guid") (VStr toID)) found in
          match fromCity, toCity with
          | Some fromCity, Some toCity =>
              Some (distance_json
                      (kilometers
                         (distanceBetweenCoord
                            {| lat := prop fromCity "latitude"; lon := prop fromCity "longitude" |}
                            {| lat := prop toCity "latitude"; lon := prop toCity "longitude" |}))
                      "km" fromCity toCity)
          | _, _ => Some (reply_of (respondWithCode 404))
          end
      | Some (Rejected err) => Some (reply_of (respondWithCode 500))
      | None => None
      end
  | _, _ => Some (reply_of (respondWithCode 400))
  end.

(** A request as the application sees it: the [Authorization] header and the
    route with its query parameters; [randomUUID] is what
    [crypto.randomUUID()] returns if the handler calls it.
    ([GET /all-cities], which pipes the file to the response, is not among
    them.) *)
Inductive route :=
| to_cities_by_tag (tagParam isActiveParam : option string)
| to_distance (fromParam toParam : option string)
| to_area (fromParam distanceParam : option string) (randomUUID : string)
| to_area_result (areaJobID : string).

Record request := {
  authorization : option string;
  target : route
}.

(** What the event loop is given: a request, or the turn of the waiting
    piece of code at position [i]. *)
Inductive event :=
| Request (req : request)
| Turn (i : nat).

(** The application: the middleware first, then the route.  For the two
    read-only routes the response is the one their handler sends after its
    [await]; it depends on nothing but the file. *)
Definition app (TEST_TOKEN : option string) (s : server) (ev : event)
  : option reply * server :=
  match ev with
  | Turn i => (None, (step store s (Resume i)).2)
  | Request req =>
      if authenticated TEST_TOKEN (authorization req) then
        match target req with
        | to_cities_by_tag tagParam isActiveParam =>
            (reply_of <$> cities_by_tag tagParam isActiveParam, s)
        | to_distance fromParam toParam => (distance fromParam toParam, s)
        | to_area fromParam distanceParam randomUUID =>
            let '(res, s') := area fromParam distanceParam randomUUID s in
            (Some (reply_of res), s')
        | to_area_result areaJobID => (Some (reply_of (area_result areaJobID s)), s)
        end
      else (Some (reply_of (respondWithCode 401)), s)
  end.

Fixpoint serve (TEST_TOKEN : option string) (s : server) (events : list event)
  : list reply * server :=
  match events with
  | [] => ([], s)
  | ev :: rest =>
      let '(res, s') := app TEST_TOKEN s ev in
      let '(sent, s'') := serve TEST_TOKEN s' rest in
      (match res with Some r => r :: sent | None => sent end, s'')
  end.

(** The inputs of the area jobs that a sequence of events amounts to: the
    authenticated requests to the two area routes, and the turns. *)
Definition area_input (TEST_TOKEN : option string) (ev : event) : option input :=
  match ev with
  | Turn i => Some (Resume i)
  | Request req =>
      if authenticated TEST_TOKEN (authorization req) then
        match target req with
        | to_area fromParam distanceParam randomUUID =>
            Some (GET_area fromParam distanceParam randomUUID)
        | to_area_result areaJobID => Some (GET_area_result areaJobID)
        | _ => None
        end
      else None
  end.

End ReadOnly.
End Routes.

Export Routes.

(** ** A runtime and a dataset to run the model on

    The theorems below hold for every [Runtime]; this one serves to evaluate
    the model on sample requests.  Its [Math] functions are truncated series.
    Its conversions are exact on plain decimal literals (sign, digits,
    fraction) and on integers below 2^53, which is all the samples use; other
    literals read as [NaN], and other numbers print their binary value in
    full rather than by their shortest decimal. *)

Module Example.
Local Open Scope float_scope.

Definition sin_series (x : float) : float :=
  let x2 := x * x in
  x * (1 - x2 / 6 * (1 - x2 / 20 * (1 - x2 / 42 * (1 - x2 / 72 *
      (1 - x2 / 110 * (1 - x2 / 156 * (1 - x2 / 210 * (1 - x2 / 272)))))))).

Definition cos_series (x : float) : float :=
  let x2 := x * x in
  1 - x2 / 2 * (1 - x2 / 12 * (1 - x2 / 30 * (1 - x2 / 56 *
      (1 - x2 / 90 * (1 - x2 / 132 * (1 - x2 / 182 * (1 - x2 / 240))))))).

(** The cosine, kept within its range where the series has left it. *)
Definition cos_clamped (x : float) : float :=
  let c := cos_series x in
  if abs c <=? 1 then c else if is_finite x then 1 else nan.

Definition halve_angle (z : float) : float := z / (1 + sqrt (1 + z * z)).

Definition atan_series (z : float) : float :=
  let w := halve_angle (halve_angle (halve_angle z)) in
  let w2 := w * w in
  8 * (w * (1 - w2 * (1 / 3 - w2 * (1 / 5 - w2 * (1 / 7 - w2 * (1 / 9 -
       w2 * (1 / 11 - w2 * (1 / 13 - w2 * (1 / 15 - w2 * (1 / 17)))))))))).

Definition atan2_series (y x : float) : float :=
  if 0 <? x then atan_series (y / x)
  else if x <? 0 then
    if 0 <=? y then atan_series (y / x) + Math_PI else atan_series (y / x) - Math_PI
  else if 0 <? y then Math_PI / 2
  else if y <? 0 then - (Math_PI / 2)
  else y.

(** Reading [digits] or [digits.digits] as the quotient of two integers. *)
Fixpoint read_decimal (s : string) (num : Z) (den : option Z) : option (Z * Z) :=
  match s with
  | EmptyString => Some (num, default 1%Z den)
  | String "."%char rest =>
      match den with
      | None => read_decimal rest num (Some 1%Z)
      | Some _ => None
      end
  | String c rest =>
      match digit_value c with
      | Some d =>
          if (d <? 10)%Z
          then read_decimal rest (num * 10 + d)%Z ((fun k => k * 10)%Z <$> den)
          else None
      | None => None
      end
  end.

Definition quotient_to_number (negative : bool) (num den : Z) : float :=
  match num, den with
  | Zpos n, Zpos d =>
      SF2Prim (SFdiv prec emax (S754_finite negative n 0) (S754_finite false d 0))
  | _, _ => if negative then -0 else 0
  end.

Definition string_to_number (s : string) : float :=
  let trimmed := String.rev (trim_start (String.rev (trim_start s))) in
  let '(negative, unsigned) :=
    match trimmed with
    | String "-"%char rest => (true, rest)
    | String "+"%char rest => (false, rest)
    | _ => (false, trimmed)
    end in
  match trimmed, unsigned with
  | EmptyString, _ => 0
  | _, EmptyString => nan
  | _, String "."%char EmptyString => nan
  | _, _ =>
      match read_decimal unsigned 0 None with
      | Some (num, den) => quotient_to_number negative num den
      | None => nan
      end
  end.

Fixpoint strip_zeros (rev_digits : string) : string :=
  match rev_digits with
  | String "0"%char rest => strip_zeros rest
  | _ => rev_digits
  end.

Definition print_scaled (m : positive) (k : nat) : string :=
  let digits := pretty (Z.pos m * 5 ^ Z.of_nat k)%Z in
  let padded := String.concat EmptyString (replicate (S k - String.length digits) "0"%string)
                +:+ digits in
  let whole := String.substring 0 (String.length padded - k) padded in
  let frac := String.rev (strip_zeros (String.rev
                (String.substring (String.length padded - k) k padded))) in
  match frac with
  | EmptyString => whole
  | _ => whole +:+ "." +:+ frac
  end.

Definition number_to_string (n : float) : string :=
  match Prim2SF n with
  | S754_nan => "NaN"
  | S754_zero _ => "0"
  | S754_infinity s => if s then "-Infinity" else "Infinity"
  | S754_finite s m e =>
      (if s then "-" else EmptyString) +:+
      match e with
      | Zneg k => print_scaled m (Pos.to_nat k)
      | _ => pretty (Z.pos m * 2 ^ e)%Z
      end
  end%string.

#[export] Instance runtime : Runtime := {|
  Math_sin := sin_series;
  Math_cos := cos_clamped;
  Math_atan2 := atan2_series;
  StringToNumber := string_to_number;
  NumberToString := number_to_string
|}.

Definition city (guid : string) (latitude longitude : float)
  (tags : list string) (isActive : bool) : record :=
  {[ "guid" := VStr guid;
     "latitude" := VNum latitude;
     "longitude" := VNum longitude;
     "tags" := VArr (VStr <$> tags);
     "isActive" := VBool isActive ]}.

Definition london_id : string := "ed354fef-31d3-44a9-b92f-4a3bd7eb0408".

Definition london : record :=
  city london_id 51.5074 (-0.1278)
       ["capital"; "river"] true.
Definition paris : record :=
  city "17f4ceee-8270-4119-87c0-9c1ef946695e" 48.8566 2.3522
       ["capital"; "river"] true.
Definition reykjavik : record :=
  city "b1a1d3a0-8b3f-4f8e-9c56-5b3c1e2a7d10" 64.1466 (-21.9426)
       ["capital"; "coastal"] false.

(** [{ lat: city.latitude, lon: city.longitude }] *)
Definition coordinates (city : record) : point :=
  {| lat := prop city "latitude"; lon := prop city "longitude" |}.

(** A backing file that holds the array of the three records. *)
Definition addresses : backing_file :=
  {| delivered := [london; paris; reykjavik]; failure := None |}.

(** The same file when reading it breaks off after the first record. *)
Definition broken : backing_file :=
  {| delivered := [london]; failure := Some "EIO: i/o error, read" |}.

(** [toFixed], exact: the decimal nearest to the number, the larger one of
    two that are as near; numbers from 1e21 on print as [String] does. *)
Definition insert_point (digits : string) (fractionDigits : nat) : string :=
  let padded :=
    String.concat EmptyString
      (replicate (S fractionDigits - String.length digits) "0"%string) +:+ digits in
  let whole := String.substring 0 (String.length padded - fractionDigits) padded in
  match fractionDigits with
  | O => whole
  | _ => (whole +:+ "." +:+
          String.substring (String.length padded - fractionDigits) fractionDigits padded)%string
  end.

Definition to_fixed (x : float) (fractionDigits : nat) : string :=
  match Prim2SF x with
  | S754_nan => "NaN"
  | S754_infinity s => if s then "-Infinity" else "Infinity"
  | S754_zero _ => insert_point "0" fractionDigits
  | S754_finite s m e =>
      if 1e21 <=? abs x then number_to_string x
      else
        let scaled := (Z.pos m * 10 ^ Z.of_nat fractionDigits)%Z in
        let n :=
          match e with
          | Zneg k => ((scaled * 2 + 2 ^ Z.pos k) / 2 ^ (Z.pos k + 1))%Z
          | _ => (scaled * 2 ^ e)%Z
          end in
        ((if s then "-" else EmptyString) +:+ insert_point (pretty n) fractionDigits)%string
  end.

#[export] Instance formatting : Formatting := {| Number_toFixed := to_fixed |}.

Definition paris_id : string := "17f4ceee-8270-4119-87c0-9c1ef946695e".

(** An [atan2] that stays out of the negative numbers where the sign bit of
    [y] is clear, whatever the series makes of it. *)
Definition atan2_guarded (y x : float) : float :=
  let r := atan2_series y x in
  if negb (SF_sign (Prim2SF y)) && (r <? 0) then 0 else r.

Definition guarded_runtime : Runtime := {|
  Math_sin := sin_series;
  Math_cos := cos_clamped;
  Math_atan2 := atan2_guarded;
  StringToNumber := string_to_number;
  NumberToString := number_to_string
|}.

(** An [atan2] that answers [NaN] when one of its arguments is [NaN], as
    [Math.atan2] does. *)
Definition atan2_nan (y x : float) : float :=
  if is_nan y || is_nan x then nan else atan2_series y x.

Definition nan_runtime : Runtime := {|
  Math_sin := sin_series;
  Math_cos := cos_clamped;
  Math_atan2 := atan2_nan;
  StringToNumber := string_to_number;
  NumberToString := number_to_string
|}.

End Example.

(** * Properties *)

(** ** Facts on binary64 arithmetic

    Derived from the specification of the primitive operations
    ([SpecFloat], [FloatAxioms]). *)

Section FloatFacts.
Local Open Scope float_scope.

Lemma binary_round_aux_negb s m e l :
  binary_round_aux prec emax (negb s) m e l = SFopp (binary_round_aux prec emax s m e l).
Proof.
  unfold binary_round_aux.
  destruct (shr_fexp prec emax m e l) as [mrs' e'].
  destruct (shr_fexp prec emax _ e' loc_Exact) as [mrs'' e''].
  destruct (shr_m mrs''); [reflexivity| |reflexivity].
  destruct (Z.leb e'' _); reflexivity.
Qed.

Lemma SFopp_involutive x : SFopp (SFopp x) = x.
Proof. destruct x; simpl; rewrite ?negb_involutive; reflexivity. Qed.

Lemma SFmul_opp_l x y : SFmul prec emax (SFopp x) y = SFopp (SFmul prec emax x y).
Proof.
  destruct x as [sx|sx| |sx mx ex], y as [sy|sy| |sy my ey]; simpl;
    rewrite <- ?negb_xorb_l; try reflexivity.
  apply binary_round_aux_negb.
Qed.

Lemma SFmul_comm x y : SFmul prec emax x y = SFmul prec emax y x.
Proof.
  destruct x as [sx|sx| |sx mx ex], y as [sy|sy| |sy my ey]; simpl;
    rewrite ?(xorb_comm sx sy); try reflexivity.
  now rewrite Pos.mul_comm, Z.add_comm.
Qed.

Lemma SFdiv_opp_l x y : SFdiv prec emax (SFopp x) y = SFopp (SFdiv prec emax x y).
Proof.
  destruct x as [sx|sx| |sx mx ex], y as [sy|sy| |sy my ey]; simpl;
    rewrite <- ?negb_xorb_l; try reflexivity.
  destruct (SFdiv_core_binary prec emax (Z.pos mx) ex (Z.pos my) ey) as [[mz ez] lz].
  apply binary_round_aux_negb.
Qed.

Lemma binary_normalize_opp m e :
  binary_normalize prec emax (- m) e false = SFopp (binary_normalize prec emax m e false)
  ∨ m = 0%Z.
Proof.
  destruct m as [|p|p]; [now right| |]; left; simpl; unfold binary_round;
    destruct (shl_align _ _ _) as [mz ez].
  - apply (binary_round_aux_negb false).
  - change true with (negb false).
    now rewrite binary_round_aux_negb, SFopp_involutive.
Qed.

(** Swapping the operands of a subtraction negates the difference, unless
    both differences are the positive zero. *)
Lemma SFsub_antisym x y :
  SFsub prec emax y x = SFopp (SFsub prec emax x y)
  ∨ (SFsub prec emax x y = S754_zero false ∧ SFsub prec emax y x = S754_zero false).
Proof.
  destruct x as [sx|sx| |sx mx ex], y as [sy|sy| |sy my ey]; simpl;
    try (left; reflexivity);
    try (destruct sx, sy; simpl; auto; fail).
  rewrite (Z.min_comm ey ex).
  set (a := cond_Zopp sx _). set (b := cond_Zopp sy _).
  replace (b - a)%Z with (- (a - b))%Z by lia.
  destruct (binary_normalize_opp (a - b) (Z.min ex ey)) as [H|H]; [now left|].
  right. now rewrite H.
Qed.

Lemma opp_involutive x : - - x = x.
Proof. apply Prim2SF_inj. now rewrite !FloatAxioms.opp_spec, SFopp_involutive. Qed.

Lemma mul_opp_l x y : (- x) * y = - (x * y).
Proof. apply Prim2SF_inj. rewrite FloatAxioms.opp_spec, !FloatAxioms.mul_spec, FloatAxioms.opp_spec. apply SFmul_opp_l. Qed.

Lemma mul_comm x y : x * y = y * x.
Proof. apply Prim2SF_inj. rewrite !FloatAxioms.mul_spec. apply SFmul_comm. Qed.

Lemma mul_opp_r x y : x * (- y) = - (x * y).
Proof. now rewrite mul_comm, mul_opp_l, mul_comm. Qed.

Lemma mul_opp_opp x y : (- x) * (- y) = x * y.
Proof. now rewrite mul_opp_l, mul_opp_r, opp_involutive. Qed.

Lemma div_opp_l x y : (- x) / y = - (x / y).
Proof. apply Prim2SF_inj. rewrite FloatAxioms.opp_spec, !FloatAxioms.div_spec, FloatAxioms.opp_spec. apply SFdiv_opp_l. Qed.

Lemma sub_antisym x y : y - x = - (x - y) ∨ (x - y = 0 ∧ y - x = 0).
Proof.
  destruct (SFsub_antisym (Prim2SF x) (Prim2SF y)) as [H|[H1 H2]]; [left|right; split];
    apply Prim2SF_inj; rewrite ?FloatAxioms.opp_spec, !FloatAxioms.sub_spec; assumption.
Qed.

(** *** No overflow: a small mantissa at a small exponent rounds to a finite
    number *)

Lemma digits2_pos_bounds p :
  (2 ^ (Z.pos (digits2_pos p) - 1) <= Z.pos p < 2 ^ Z.pos (digits2_pos p))%Z.
Proof.
  induction p as [p IH|p IH|]; simpl digits2_pos; [| |simpl; lia];
    rewrite Pos2Z.inj_succ;
    replace (Z.succ (Z.pos (digits2_pos p)) - 1)%Z with (Z.succ (Z.pos (digits2_pos p) - 1)) by lia;
    rewrite !Z.pow_succ_r by lia; lia.
Qed.

Lemma Zdigits2_le z K : (0 <= z < 2 ^ K)%Z → (0 <= K)%Z → (0 <= Zdigits2 z <= K)%Z.
Proof.
  intros [Hz Hlt] HK. destruct z as [|p|p]; simpl; [lia| |lia].
  split; [lia|]. pose proof (digits2_pos_bounds p) as [Hlo _].
  assert (2 ^ (Z.pos (digits2_pos p) - 1) < 2 ^ K)%Z as Hpow by lia.
  apply Z.pow_lt_mono_r_iff in Hpow; lia.
Qed.

Lemma shr_1_bounds mrs : (0 <= shr_m mrs)%Z → (0 <= shr_m (shr_1 mrs) <= shr_m mrs)%Z.
Proof. destruct mrs as [[|[p|p|]|p] r t]; simpl; lia. Qed.

Lemma iter_pos_shr_1_bounds n mrs :
  (0 <= shr_m mrs)%Z → (0 <= shr_m (SpecFloat.iter_pos shr_1 n mrs) <= shr_m mrs)%Z.
Proof.
  revert mrs. induction n as [n IH|n IH|]; intros mrs H; simpl.
  - pose proof (shr_1_bounds mrs H). pose proof (IH (shr_1 mrs) ltac:(lia)).
    pose proof (IH (SpecFloat.iter_pos shr_1 n (shr_1 mrs)) ltac:(lia)). lia.
  - pose proof (IH mrs H). pose proof (IH (SpecFloat.iter_pos shr_1 n mrs) ltac:(lia)). lia.
  - now apply shr_1_bounds.
Qed.

Lemma shr_m_record_of_loc m l : shr_m (shr_record_of_loc m l) = m.
Proof. destruct l as [|[]]; reflexivity. Qed.

Lemma shr_fexp_bounds m e l K :
  (0 <= m < 2 ^ K)%Z → (0 <= K)%Z →
  (0 <= shr_m (shr_fexp prec emax m e l).1 <= m)%Z ∧
  ((shr_fexp prec emax m e l).2 <= Z.max e (Z.max (K + e - 53) (-1074)))%Z.
Proof.
  intros Hm HK. unfold shr_fexp, shr.
  pose proof (Zdigits2_le m K Hm HK) as Hd.
  assert (fexp prec emax (Zdigits2 m + e) <= Z.max (K + e - 53) (-1074))%Z as Hf
    by (unfold fexp, SpecFloat.emin, prec, emax; lia).
  destruct (fexp prec emax (Zdigits2 m + e) - e)%Z as [|p|p] eqn:E; simpl;
    rewrite ?shr_m_record_of_loc; try lia.
  pose proof (iter_pos_shr_1_bounds p (shr_record_of_loc m l)) as Hb.
  rewrite shr_m_record_of_loc in Hb. lia.
Qed.

Lemma round_nearest_even_bounds m l :
  (0 <= m)%Z → (0 <= round_nearest_even m l <= m + 1)%Z.
Proof. intros H. destruct l as [|[]]; simpl; try destruct (Z.even m); lia. Qed.

Lemma binary_round_aux_below s m e l K :
  (0 <= m < 2 ^ K)%Z → (0 <= K <= 400)%Z → (e + 2 * K <= 900)%Z →
  SF_below (Z.max e (-1074) + 2 * K + 1) (binary_round_aux prec emax s m e l) ∧
  SF_sign (binary_round_aux prec emax s m e l) = s.
Proof.
  intros Hm HK He. unfold binary_round_aux.
  pose proof (shr_fexp_bounds m e l K Hm ltac:(lia)) as [Hm1 He1].
  destruct (shr_fexp prec emax m e l) as [mrs' e']; simpl in Hm1, He1.
  pose proof (round_nearest_even_bounds (shr_m mrs') (loc_of_shr_record mrs') ltac:(lia)) as Hr.
  set (m1 := round_nearest_even _ _) in *.
  assert (0 <= m1 < 2 ^ (K + 1))%Z as Hm1' by (rewrite Z.pow_add_r by lia; lia).
  pose proof (shr_fexp_bounds m1 e' loc_Exact (K + 1) Hm1' ltac:(lia)) as [Hm2 He2].
  destruct (shr_fexp prec emax m1 e' loc_Exact) as [mrs'' e'']; simpl in Hm2, He2.
  destruct (shr_m mrs'') as [|p|p]; [now split| |lia].
  destruct (Z.leb_spec e'' (emax - prec)) as [_|Hgt]; simpl; [split; [lia|reflexivity]|].
  unfold emax, prec in Hgt. lia.
Qed.

Lemma valid_mantissa_lt s m e :
  valid_binary (S754_finite s m e) = true → (Z.pos m < 2 ^ 53)%Z.
Proof.
  simpl. unfold bounded, canonical_mantissa, fexp, SpecFloat.emin, prec, emax.
  intros H. apply andb_prop in H as [H _]. apply Z.eqb_eq in H.
  pose proof (digits2_pos_bounds m) as [_ Hhi].
  assert (Z.pos (digits2_pos m) <= 53)%Z as Hd by lia.
  eapply Z.lt_le_trans; [exact Hhi|]. apply Z.pow_le_mono_r; lia.
Qed.

Lemma SFleb_abs_below x s m e :
  SFleb (SFabs x) (S754_finite s m e) = true → SF_below e x.
Proof.
  intros H. destruct x as [sx|sx| |sx mx ex]; simpl in *;
    try exact I; try discriminate H.
  unfold SFleb, SFcompare in H. destruct s; [discriminate|].
  destruct (Z.compare_spec ex e); [lia|lia|discriminate].
Qed.

Lemma SFmul_below E1 E2 x y :
  valid_binary x = true → valid_binary y = true →
  SF_below E1 x → SF_below E2 y → (E1 + E2 <= 600)%Z →
  SF_below (Z.max (E1 + E2) (-1074) + 213) (SFmul prec emax x y) ∧
  SF_sign (SFmul prec emax x y) = xorb (SF_sign x) (SF_sign y).
Proof.
  intros Vx Vy Hx Hy HE.
  destruct x as [sx|sx| |sx mx ex], y as [sy|sy| |sy my ey]; simpl in Hx, Hy;
    try contradiction; try (now split).
  pose proof (valid_mantissa_lt sx mx ex Vx). pose proof (valid_mantissa_lt sy my ey Vy).
  destruct (binary_round_aux_below (xorb sx sy) (Z.pos (mx * my)) (ex + ey) loc_Exact 106)
    as [Hb Hs]; try lia.
  { split; [lia|]. change (2 ^ 106)%Z with (2 ^ 53 * 2 ^ 53)%Z. rewrite Pos2Z.inj_mul. nia. }
  split; [|exact Hs]. simpl.
  destruct (binary_round_aux _ _ _ _ _ _); simpl in *; try easy; lia.
Qed.

Lemma SFdiv_core_binary_bounds m1 e1 m2 e2 :
  (Z.pos m1 < 2 ^ 53)%Z → (Z.pos m2 < 2 ^ 53)%Z →
  let '(q, e', _) := SFdiv_core_binary prec emax (Z.pos m1) e1 (Z.pos m2) e2 in
  (0 <= q < 2 ^ 159)%Z ∧ (e' <= e1 - e2)%Z.
Proof.
  intros H1 H2. unfold SFdiv_core_binary.
  set (d1 := Zdigits2 (Z.pos m1)). set (d2 := Zdigits2 (Z.pos m2)).
  set (e' := Z.min _ _). set (s := (e1 - e2 - e')%Z).
  assert (1 <= d1 ∧ 0 <= d2 <= 53)%Z as Hd.
  { pose proof (Zdigits2_le (Z.pos m2) 53 ltac:(lia) ltac:(lia)). subst d1 d2. simpl in *. lia. }
  assert (0 <= s <= 105)%Z as Hs.
  { subst s e'. unfold fexp, SpecFloat.emin, prec, emax. lia. }
  set (m' := match s with Z.pos _ => Z.shiftl (Z.pos m1) s | Z0 => Z.pos m1 | Z.neg _ => 0%Z end).
  assert (0 <= m' < 2 ^ 158)%Z as Hm'.
  { assert (2 ^ s <= 2 ^ 105)%Z by (apply Z.pow_le_mono_r; lia).
    assert (0 < 2 ^ s)%Z by (apply Z.pow_pos_nonneg; lia).
    change (2 ^ 158)%Z with (2 ^ 53 * 2 ^ 105)%Z.
    subst m'. destruct s as [|p|p] eqn:Es; [nia| |lia].
    rewrite Z.shiftl_mul_pow2 by lia. nia. }
  pose proof (Z_div_mod m' (Z.pos m2) ltac:(lia)) as Hdiv.
  destruct (Z.div_eucl m' (Z.pos m2)) as [q r]. destruct Hdiv as [Hq Hr].
  split; [|subst e'; lia].
  assert (0 <= q)%Z by nia. assert (q <= m')%Z by nia.
  change (2 ^ 159)%Z with (2 * 2 ^ 158)%Z. lia.
Qed.

Lemma SFdiv_below E x s m e :
  valid_binary x = true → valid_binary (S754_finite s m e) = true →
  SF_below E x → (E - e <= 500)%Z →
  SF_below (Z.max (E - e) (-1074) + 319) (SFdiv prec emax x (S754_finite s m e)).
Proof.
  intros Vx Vy Hx HE.
  destruct x as [sx|sx| |sx mx ex]; simpl in Hx; try contradiction; [easy|].
  pose proof (valid_mantissa_lt sx mx ex Vx). pose proof (valid_mantissa_lt s m e Vy).
  simpl. pose proof (SFdiv_core_binary_bounds mx ex m e ltac:(lia) ltac:(lia)) as Hc.
  destruct (SFdiv_core_binary prec emax (Z.pos mx) ex (Z.pos m) e) as [[q e'] l].
  destruct Hc as [Hq He'].
  destruct (binary_round_aux_below (xorb sx s) q e' l 159) as [Hb _]; try lia.
  destruct (binary_round_aux _ _ _ _ _ _); simpl in *; try easy; lia.
Qed.

Lemma is_finite_Prim2SF x :
  is_finite x = match Prim2SF x with
                | S754_zero _ | S754_finite _ _ _ => true
                | _ => false
                end.
Proof.
  unfold is_finite, is_nan, is_infinity. rewrite !FloatAxioms.eqb_spec, FloatAxioms.abs_spec.
  change (Prim2SF infinity) with (S754_infinity false).
  destruct (Prim2SF x) as [s|s| |s m e]; simpl; try reflexivity.
  - now destruct s.
  - unfold SFeqb, SFcompare. rewrite Z.compare_refl, Pos.compare_cont_refl.
    now destruct s.
Qed.

Lemma is_finite_spec x : is_finite x = true ↔ ∃ E, SF_below E (Prim2SF x).
Proof.
  rewrite is_finite_Prim2SF.
  destruct (Prim2SF x) as [s|s| |s m e]; simpl;
    (split; [intros H; try discriminate H|intros [E H]; try contradiction; try reflexivity]).
  - now exists 0%Z.
  - now exists e.
Qed.

Lemma sub_diag x : is_finite x = true → x - x = 0.
Proof.
  rewrite is_finite_spec. intros [E H]. apply Prim2SF_inj. rewrite FloatAxioms.sub_spec.
  change (Prim2SF 0) with (S754_zero false).
  destruct (Prim2SF x) as [s|s| |s m e]; try contradiction; simpl.
  - now destruct s.
  - now rewrite Z.sub_diag.
Qed.

Lemma leb_abs_finite x b s m e :
  Prim2SF b = S754_finite s m e → (abs x <=? b) = true → is_finite x = true.
Proof.
  rewrite FloatAxioms.leb_spec, FloatAxioms.abs_spec, is_finite_spec. intros -> H.
  exists e. now apply SFleb_abs_below in H.
Qed.

(** A square of a number of magnitude at most one, times zero, is the
    positive zero. *)
Lemma mul_self_zero c : (abs c <=? 1) = true → c * c * 0 = 0.
Proof.
  rewrite FloatAxioms.leb_spec, FloatAxioms.abs_spec. change (Prim2SF 1) with (S754_finite false 4503599627370496 (-52)).
  intros H. apply SFleb_abs_below in H.
  destruct (SFmul_below (-52) (-52) (Prim2SF c) (Prim2SF c)) as [Hb Hs];
    auto using Prim2SF_valid; [lia|].
  rewrite xorb_nilpotent in Hs.
  apply Prim2SF_inj. rewrite !FloatAxioms.mul_spec. change (Prim2SF 0) with (S754_zero false).
  unfold SF64mul. destruct (SFmul prec emax (Prim2SF c) (Prim2SF c)) as [s|s| |s m e];
    simpl in *; try contradiction; now subst s.
Qed.

(** Degrees of magnitude at most 90 convert to a finite number of radians. *)
Lemma radians_finite x : (abs x <=? 90) = true → is_finite (x * Math_PI / 180) = true.
Proof.
  rewrite FloatAxioms.leb_spec, FloatAxioms.abs_spec. change (Prim2SF 90) with (S754_finite false 6333186975989760 (-46)).
  intros H. apply SFleb_abs_below in H.
  destruct (SFmul_below (-46) (-51) (Prim2SF x) (Prim2SF Math_PI)) as [Hb _];
    auto using Prim2SF_valid; [now vm_compute|lia|].
  rewrite <- FloatAxioms.mul_spec in Hb.
  apply is_finite_spec. eexists. rewrite FloatAxioms.div_spec.
  change (Prim2SF 180) with (S754_finite false 6333186975989760 (-45)).
  apply SFdiv_below; [apply Prim2SF_valid|reflexivity|exact Hb|lia].
Qed.

End FloatFacts.

(** Rewriting with [float_sign] moves the negations of a product or a
    quotient to its head and cancels them in pairs. *)
Create Rewrite HintDb float_sign.
#[export] Hint Rewrite mul_opp_l mul_opp_r div_opp_l opp_involutive : float_sign.

(** ** The distance *)

Section GeometryFacts.
Context {RT : Runtime}.
Local Open Scope float_scope.

Lemma eqb_refl x : is_nan x = false → (x =? x) = true.
Proof. unfold is_nan. now destruct (x =? x). Qed.

(** The half-angle sine of a difference only changes its sign when the
    operands of the difference are swapped. *)
Lemma half_angle_sine_swap u v :
  (∀ x, Math_sin (- x) = - Math_sin x) →
  Math_sin ((u - v) * Math_PI / 180 / 2) = Math_sin ((v - u) * Math_PI / 180 / 2) ∨
  Math_sin ((u - v) * Math_PI / 180 / 2) = - Math_sin ((v - u) * Math_PI / 180 / 2).
Proof.
  intros Hodd. destruct (sub_antisym v u) as [H|[H1 H2]].
  - right. rewrite H. autorewrite with float_sign. apply Hodd.
  - left. now rewrite H1, H2.
Qed.

Lemma distanceBetweenCoord_sym p1 p2 :
  (∀ x, Math_sin (- x) = - Math_sin x) →
  distanceBetweenCoord p1 p2 = distanceBetweenCoord p2 p1.
Proof.
  intros Hodd. unfold distanceBetweenCoord. cbv zeta.
  set (C1 := Math_cos (ToNumber (lat p1) * Math_PI / 180)).
  set (C2 := Math_cos (ToNumber (lat p2) * Math_PI / 180)).
  rewrite (mul_comm C2 C1).
  destruct (half_angle_sine_swap (ToNumber (lat p1)) (ToNumber (lat p2)) Hodd) as [-> | ->];
    destruct (half_angle_sine_swap (ToNumber (lon p1)) (ToNumber (lon p2)) Hodd) as [-> | ->];
    autorewrite with float_sign; reflexivity.
Qed.

Lemma finite_radians_finite x : finite_radians x = true → is_finite x = true.
Proof.
  unfold finite_radians. rewrite !is_finite_Prim2SF, FloatAxioms.div_spec, FloatAxioms.mul_spec.
  change (Prim2SF 180) with (S754_finite false 6333186975989760 (-45)).
  change (Prim2SF Math_PI) with (S754_finite false 7074237752028440 (-51)).
  destruct (Prim2SF x); simpl; auto.
Qed.

Lemma latitude_finite_radians x : (abs x <=? 90) = true → finite_radians x = true.
Proof. apply radians_finite. Qed.

Lemma distanceBetweenCoord_self la lo :
  Math_conforms → finite_radians la = true → is_finite lo = true →
  distanceBetweenCoord {| lat := VNum la; lon := VNum lo |}
                       {| lat := VNum la; lon := VNum lo |} = 0.
Proof.
  intros [_ Hsin Hcos Hatan] Hla Hlo.
  unfold distanceBetweenCoord. cbv zeta. simpl lat. simpl lon. simpl ToNumber.
  rewrite (sub_diag la (finite_radians_finite la Hla)), (sub_diag lo Hlo).
  change (0 * Math_PI / 180 / 2) with 0.
  rewrite Hsin, (mul_self_zero _ (Hcos _ Hla)).
  change (0 * 0 + 0 * 0) with 0. change (Math_sqrt 0) with 0.
  change (Math_sqrt (1 - 0)) with 1. rewrite Hatan. reflexivity.
Qed.

(** C9, as far as it holds.  For all points the two calls return the same
    number, so that [distance(A,B) == distance(B,A)] holds whenever that
    number is not [NaN]; and [distance(A,A) == 0] holds of every point with
    a finite longitude and a latitude whose conversion to radians is finite
    (every latitude between -90 and 90 is one, [latitude_finite_radians]).
    For every [Math] whose sine is odd and zero at zero, whose cosine of a
    finite number is within [-1, 1], and with [atan2(0, 1) = 0]. *)
Theorem distanceBetweenCoord_symmetric_zero_on_self :
  Math_conforms →
  (∀ p1 p2, distanceBetweenCoord p1 p2 = distanceBetweenCoord p2 p1) ∧
  (∀ p1 p2, is_nan (distanceBetweenCoord p1 p2) = false →
            (distanceBetweenCoord p1 p2 =? distanceBetweenCoord p2 p1) = true) ∧
  (∀ la lo, finite_radians la = true → is_finite lo = true →
            (distanceBetweenCoord {| lat := VNum la; lon := VNum lo |}
                                  {| lat := VNum la; lon := VNum lo |} =? 0) = true).
Proof.
  intros HM. split; [|split].
  - intros p1 p2. apply distanceBetweenCoord_sym, HM.
  - intros p1 p2 Hnan. rewrite <- (distanceBetweenCoord_sym p1 p2) by apply HM.
    now apply eqb_refl.
  - intros la lo Hla Hlo. now rewrite distanceBetweenCoord_self.
Qed.

End GeometryFacts.

(** ** The store *)

Section StoreFacts.
Context {RT : Runtime}.

Lemma fold_on_event_data matcher items c :
  fold_left (on_event matcher) (map ev_data items) c =
  {| Store.result := Store.result c ++ List.filter matcher items; promise := promise c |}.
Proof.
  revert c. induction items as [|item items IH]; intros c; simpl.
  - rewrite app_nil_r. now destruct c.
  - rewrite IH. destruct (matcher item); simpl; [|reflexivity].
    now rewrite <- app_assoc.
Qed.

Lemma filter_settles file matcher :
  filter file matcher =
  Some match failure file with
       | None => Resolved (List.filter matcher (delivered file))
       | Some err => Rejected err
       end.
Proof.
  unfold filter, pipeline_events. rewrite fold_left_app, fold_on_event_data.
  destruct (failure file); reflexivity.
Qed.

(** C7: on a backing file that holds one JSON array of records, [filter]
    resolves with exactly the records that satisfy the predicate, in file
    order; when the read or the parse fails, the promise rejects. *)
Theorem FileBasedStore_filter_resolves_or_rejects :
  (∀ (items : list record) (matcher : record → bool),
     filter {| delivered := items; failure := None |} matcher =
     Some (Resolved (List.filter matcher items))) ∧
  (∀ (items : list record) (err : error) (matcher : record → bool),
     filter {| delivered := items; failure := Some err |} matcher =
     Some (Rejected err)).
Proof. split; intros; apply filter_settles. Qed.

Lemma check_keys_Forall obj keys :
  check_keys obj keys = true ↔ Forall (λ kf, check_key obj kf.1 kf.2 = true) keys.
Proof.
  induction keys as [|[k f] keys IH]; simpl.
  - split; [constructor|reflexivity].
  - rewrite Forall_cons. simpl. destruct (check_key obj k f); [tauto|].
    split; [discriminate|now intros []].
Qed.

Lemma check_key_spec obj key f :
  check_key obj key f = true ↔
  is_nullish (prop obj key) = false ∧
  ∀ d, selected_directive f = Some d → directive_succeeds (prop obj key) d = true.
Proof.
  unfold check_key, selected_directive.
  destruct (is_nullish (prop obj key)); [split; [discriminate|now intros []]|].
  destruct (is_nullish (op_equals f)); simpl.
  - destruct (is_nullish (op_includes f)); simpl.
    + destruct (is_nullish (op_in f)); simpl.
      * split; [split; [reflexivity|discriminate]|reflexivity].
      * destruct (op_in f) as [| | | | |elems|]; simpl;
          try (split; [discriminate|intros [_ H]; now specialize (H _ eq_refl)]).
        destruct (Array_includes elems (prop obj key)) eqn:E; simpl.
        -- split; [|reflexivity]. intros _. split; [reflexivity|]. now intros d [= <-].
        -- split; [discriminate|]. intros [_ H]. specialize (H _ eq_refl). simpl in H. congruence.
    + destruct (prop obj key) as [| | | | |elems|]; simpl;
        try (split; [discriminate|intros [_ H]; now specialize (H _ eq_refl)]).
      destruct (Array_includes elems (op_includes f)) eqn:E; simpl.
      * split; [|reflexivity]. intros _. split; [reflexivity|]. now intros d [= <-].
      * split; [discriminate|]. intros [_ H]. specialize (H _ eq_refl). simpl in H. congruence.
  - destruct (IsLooselyEqual (prop obj key) (op_equals f)) eqn:E; simpl.
    + split; [|reflexivity]. intros _. split; [reflexivity|]. now intros d [= <-].
    + split; [discriminate|]. intros [_ H]. specialize (H _ eq_refl). simpl in H. congruence.
Qed.

(** C6, as far as it holds.  For a query on fields that are not named as a
    member of [Object.prototype], the compiled predicate accepts a record
    exactly when, for every queried field, the record's value is neither
    null nor missing and the directive read for the field, if it carries
    one, succeeds.  A field carries a directive when the operand of its
    operator is neither [null] nor [undefined]; the directive read is the
    first one the field carries in the order equals, includes, memberOf. *)
Theorem matchesKeyQuery_matches (obj : record) (q : key_query) :
  map_Forall (λ key _, inherited_key key = false) q →
  (where_ (Some q) obj = true ↔ record_matches obj q).
Proof.
  intros _. unfold where_, matchesKeyQuery, record_matches. simpl.
  rewrite check_keys_Forall, Forall_forall. split.
  - intros H key f Hq. apply check_key_spec.
    apply (H (key, f)). now apply elem_of_map_to_list.
  - intros H [key f] Hin. apply check_key_spec, H.
    now apply elem_of_map_to_list.
Qed.

Lemma SameValueZero_string e t : SameValueZero e (VStr t) = true ↔ e = VStr t.
Proof.
  destruct e; simpl; try (split; [discriminate|intros [=]]).
  rewrite String.eqb_eq. split; [now intros ->|now intros [=]].
Qed.

Lemma Array_includes_string elems t :
  Array_includes elems (VStr t) = true ↔ In (VStr t) elems.
Proof.
  unfold Array_includes. rewrite existsb_exists. split.
  - intros (e & Hin & He). apply SameValueZero_string in He. now subst.
  - intros Hin. exists (VStr t). split; [exact Hin|]. now apply SameValueZero_string.
Qed.

Lemma tags_includes_matches (R : record) (t : string) :
  where_ (Some {[ "tags" := includes (VStr t) ]}) R = true ↔
  ∃ elems, prop R "tags" = VArr elems ∧ In (VStr t) elems.
Proof.
  unfold where_, matchesKeyQuery. simpl. rewrite map_to_list_singleton. simpl.
  unfold check_key. simpl.
  destruct (prop R "tags") as [| | | | |elems|]; simpl;
    try (split; [discriminate|intros (? & [=] & _)]).
  destruct (Array_includes elems (VStr t)) eqn:E; simpl.
  - split; [|reflexivity]. intros _. exists elems. split; [reflexivity|].
    now apply Array_includes_string.
  - split; [discriminate|]. intros (? & [= <-] & Hin).
    apply Array_includes_string in Hin. congruence.
Qed.

(** C8: filtering with [{ tags: { $includes: t } }] returns a record of the
    dataset exactly when [t] is an element of its [tags]. *)
Theorem filter_tags_includes (items : list record) (t : string) :
  ∃ found,
    filter {| delivered := items; failure := None |}
           (where_ (Some {[ "tags" := includes (VStr t) ]})) = Some (Resolved found) ∧
    ∀ R, In R found ↔
         In R items ∧ ∃ elems, prop R "tags" = VArr elems ∧ In (VStr t) elems.
Proof.
  eexists. split; [now rewrite filter_settles|]. intros R.
  now rewrite filter_In, tags_includes_matches.
Qed.

End StoreFacts.

(** ** The area jobs *)

Section NaN.
Local Open Scope float_scope.

(** No number equals [NaN], and none is below it. *)
Lemma eqb_nan_r x : (x =? nan) = false.
Proof.
  rewrite FloatAxioms.eqb_spec. change (Prim2SF nan) with S754_nan.
  unfold SFeqb. now destruct (Prim2SF x) as [[]|[]| |[]].
Qed.

Lemma ltb_nan_r x : (x <? nan) = false.
Proof.
  rewrite FloatAxioms.ltb_spec. change (Prim2SF nan) with S754_nan.
  unfold SFltb. now destruct (Prim2SF x) as [[]|[]| |[]].
Qed.

Lemma is_nan_eq x : is_nan x = true → x = nan.
Proof.
  unfold is_nan. rewrite FloatAxioms.eqb_spec. intros H. apply Prim2SF_inj.
  change (Prim2SF nan) with S754_nan.
  destruct (Prim2SF x) as [s|s| |s m e]; try reflexivity; exfalso;
    unfold SFeqb, SFcompare in H;
    rewrite ?Z.compare_refl, ?Pos.compare_cont_refl in H; destruct s; discriminate.
Qed.

End NaN.

Section ServerFacts.
Context {RT : Runtime}.

Lemma filter_none {A} (f : A → bool) (l : list A) :
  (∀ x, f x = false) → List.filter f l = [].
Proof. intros H. induction l as [|x l IH]; simpl; [|rewrite H]; auto. Qed.

Lemma area_matcher_nan fromCity item : area_matcher fromCity nan item = false.
Proof. unfold area_matcher. now rewrite ltb_nan_r, andb_false_r. Qed.

(** What [GET /area] does when [from] is given. *)
Lemma area_accepts fromID distanceParam randomUUID s :
  let distance := parseInt (match distanceParam with Some d => d | None => "null" end) in
  let jobID := if Nat.eqb (size (areaProcessingJobs s)) 0 then FIRST_JOB_ID else randomUUID in
  area (Some fromID) distanceParam randomUUID s =
  (json 202 (resultsUrl (endpoint +:+ "/area-result/" +:+ jobID)),
   suspend (AwaitLookup fromID distance jobID)
           (jobs_set jobID {| result := []; isDone := false |} s)).
Proof. unfold area. cbv zeta. now rewrite eqb_nan_r. Qed.

(** The part of the validation that works: without [from], 400 and no job. *)
Lemma area_missing_from distanceParam randomUUID s :
  area None distanceParam randomUUID s = (respondWithCode 400, s).
Proof. reflexivity. Qed.

Lemma step_resume_last store s t :
  step store (suspend t s) (Resume (length (pending s))) = (None, resume store t s).
Proof.
  unfold step, suspend. simpl. rewrite list_lookup_middle by reflexivity.
  rewrite delete_middle. rewrite app_nil_r. now destruct s.
Qed.

(** The scan of a readable file completes the job with the records that the
    matcher accepts. *)
Lemma resume_scan items fromCity distance jobID s :
  resume {| delivered := items; failure := None |} (AwaitScan fromCity distance jobID) s =
  jobs_set jobID {| result := List.filter (area_matcher fromCity distance) items;
                    isDone := true |} s.
Proof. unfold resume. now rewrite filter_settles. Qed.

(** The lookup of a readable file: the origin is the first record whose
    [guid] is the requested one, and the radius handed to the scan is a
    thousand times the parsed parameter. *)
Lemma resume_lookup items fromID distance jobID s :
  resume {| delivered := items; failure := None |} (AwaitLookup fromID distance jobID) s =
  match List.find (λ city, IsStrictlyEqual (prop city "guid") (VStr fromID))
                  (List.filter (where_ (Some (guid_equals fromID))) items) with
  | Some fromCity => scheduleAreaProcessingJob fromCity (distance * 1000)%float jobID s
  | None => s
  end.
Proof. unfold resume. now rewrite filter_settles. Qed.

Lemma where_guid_equals (city : record) fromID :
  prop city "guid" = VStr fromID → where_ (Some (guid_equals fromID)) city = true.
Proof.
  intros H. unfold where_, matchesKeyQuery, guid_equals. simpl.
  rewrite map_to_list_singleton. simpl. unfold check_key. rewrite H. simpl.
  unfold IsLooselyEqual. simpl. now rewrite String.eqb_refl.
Qed.

Lemma find_origin items (origin : record) fromID :
  In origin items → prop origin "guid" = VStr fromID →
  ∃ fromCity,
    List.find (λ city, IsStrictlyEqual (prop city "guid") (VStr fromID))
              (List.filter (where_ (Some (guid_equals fromID))) items) = Some fromCity.
Proof.
  intros Hin Hguid.
  destruct (List.find _ _) as [fromCity|] eqn:E; [now exists fromCity|].
  apply find_none with (x := origin) in E.
  - rewrite Hguid in E. simpl in E. now rewrite String.eqb_refl in E.
  - apply filter_In. split; [exact Hin|]. now apply where_guid_equals.
Qed.

(** A lookup that finds no record with the requested [guid] leaves the
    server as it is: the job is neither scheduled nor deleted. *)
Lemma resume_lookup_unknown items fromID distance jobID s :
  (∀ city, In city items → IsStrictlyEqual (prop city "guid") (VStr fromID) = false) →
  resume {| delivered := items; failure := None |} (AwaitLookup fromID distance jobID) s = s.
Proof.
  intros H. rewrite resume_lookup.
  destruct (List.find _ _) as [fromCity|] eqn:E; [|reflexivity].
  apply find_some in E as [Hin Hguid]. apply filter_In in Hin as [Hin _].
  rewrite (H _ Hin) in Hguid. discriminate.
Qed.

(** A lookup that fails deletes the job. *)
Lemma resume_lookup_rejected items err fromID distance jobID s :
  resume {| delivered := items; failure := Some err |} (AwaitLookup fromID distance jobID) s =
  jobs_delete jobID s.
Proof. unfold resume. now rewrite filter_settles. Qed.

Lemma run_snoc store s inputs i :
  run store s (inputs ++ [i]) =
  let '(sent, s') := run store s inputs in
  let '(res, s'') := step store s' i in
  (sent ++ match res with Some r => [r] | None => [] end, s'').
Proof.
  revert s. induction inputs as [|j inputs IH]; intros s; simpl.
  - now destruct (step store s i) as [[r|] s'].
  - destruct (step store s j) as [res s1]. rewrite IH.
    destruct (run store s1 inputs) as [sent s2].
    destruct (step store s2 i) as [[r|] s3]; now destruct res.
Qed.

(** A request for an origin that the lookup finds, followed by the lookup
    and the scan: the job is done with the records other than the origin
    that are closer to it than a thousand times the parsed [distance], and
    its expiry timer is waiting. *)
Lemma area_job_completes items fromID distanceParam randomUUID s fromCity :
  List.find (λ city, IsStrictlyEqual (prop city "guid") (VStr fromID))
            (List.filter (where_ (Some (guid_equals fromID))) items) = Some fromCity →
  let distance := parseInt (match distanceParam with Some d => d | None => "null" end) in
  let jobID := if Nat.eqb (size (areaProcessingJobs s)) 0 then FIRST_JOB_ID else randomUUID in
  run {| delivered := items; failure := None |} s
      [GET_area (Some fromID) distanceParam randomUUID;
       Resume (length (pending s));
       Resume (S (length (pending s)))] =
  ([json 202 (resultsUrl (endpoint +:+ "/area-result/" +:+ jobID))],
   jobs_set jobID
     {| result := List.filter (area_matcher fromCity (distance * 1000)%float) items;
        isDone := true |}
     (suspend (ExpiryTimer jobID) (jobs_set jobID {| result := []; isDone := false |} s))).
Proof.
  intros Hfind distance jobID.
  unfold run. unfold step at 1. rewrite area_accepts. cbv zeta. fold distance jobID.
  set (s1 := jobs_set jobID _ s).
  change (length (pending s)) with (length (pending s1)).
  rewrite step_resume_last, resume_lookup, Hfind.
  unfold scheduleAreaProcessingJob.
  set (s2 := suspend (ExpiryTimer jobID) s1).
  replace (S (length (pending s1))) with (length (pending s2))
    by (unfold s2, suspend; simpl; rewrite length_app; simpl; lia).
  now rewrite step_resume_last, resume_scan.
Qed.

(** C10: when [distance] is given but [parseInt] makes [NaN] of it, and the
    origin city exists, [/area] still answers 202 with a results URL, and
    once the lookup and the scan have run the job is done with an empty
    result: the results URL answers 200 with no cities. *)
Theorem area_unparsable_distance_completes_empty
  (items : list record) (origin : record) (fromID d randomUUID : string) (s : server) :
  is_nan (parseInt d) = true →
  In origin items → prop origin "guid" = VStr fromID →
  ∃ jobID s',
    run {| delivered := items; failure := None |} s
        [GET_area (Some fromID) (Some d) randomUUID;
         Resume (length (pending s));
         Resume (S (length (pending s)));
         GET_area_result jobID] =
    ([json 202 (resultsUrl (endpoint +:+ "/area-result/" +:+ jobID));
      json 200 (cities [])], s') ∧
    areaProcessingJobs s' !! jobID = Some {| result := []; isDone := true |}.
Proof.
  intros Hnan Hin Hguid.
  destruct (find_origin items origin fromID Hin Hguid) as [fromCity Hfind].
  exists (if Nat.eqb (size (areaProcessingJobs s)) 0 then FIRST_JOB_ID else randomUUID).
  set (jobID := if Nat.eqb _ _ then _ else _). eexists.
  change [GET_area (Some fromID) (Some d) randomUUID; Resume (length (pending s));
          Resume (S (length (pending s))); GET_area_result jobID]
    with ([GET_area (Some fromID) (Some d) randomUUID; Resume (length (pending s));
           Resume (S (length (pending s)))] ++ [GET_area_result jobID]).
  rewrite run_snoc, (area_job_completes _ _ _ _ _ _ Hfind). cbv zeta. fold jobID.
  rewrite (is_nan_eq _ Hnan). change (nan * 1000)%float with nan.
  rewrite (filter_none _ _ (area_matcher_nan fromCity)).
  unfold step, area_result, jobs_set. simpl. rewrite lookup_insert_eq. simpl.
  split; [reflexivity|]. simpl. apply lookup_insert_eq.
Qed.

(** The completion of a scan does not look at the registry before it writes:
    on a registry from which the entry of the job has been deleted, the entry
    is there again afterwards. *)
Lemma complete_after_delete_recreates
  (items : list record) (fromCity : record) (distance : float) (jobID : string) (s : server) :
  areaProcessingJobs
    (resume {| delivered := items; failure := None |}
            (AwaitScan fromCity distance jobID) (jobs_delete jobID s)) !! jobID =
  Some {| result := List.filter (area_matcher fromCity distance) items; isDone := true |}.
Proof. rewrite resume_scan. simpl. apply lookup_insert_eq. Qed.

(** C5: a job gets the hardcoded identifier when the registry is empty at
    the moment it is issued, which holds of the first job overall, and the
    random identifier when the registry holds a job. *)
Theorem area_job_identifier
  (fromID : string) (distanceParam : option string) (randomUUID : string) (s : server) :
  ∃ jobID,
    area (Some fromID) distanceParam randomUUID s =
    (json 202 (resultsUrl (endpoint +:+ "/area-result/" +:+ jobID)),
     suspend (AwaitLookup fromID
                (parseInt (match distanceParam with Some d => d | None => "null" end)) jobID)
             (jobs_set jobID {| result := []; isDone := false |} s)) ∧
    (areaProcessingJobs s = ∅ → jobID = FIRST_JOB_ID) ∧
    (areaProcessingJobs s ≠ ∅ → jobID = randomUUID).
Proof.
  eexists. split; [apply area_accepts|]. cbv zeta.
  destruct (Nat.eqb_spec (size (areaProcessingJobs s)) 0) as [H|H].
  - apply map_size_empty_iff in H. split; [reflexivity|]. now intros [].
  - split; [|reflexivity]. intros He. rewrite He, map_size_empty in H. contradiction.
Qed.

(** C3: a request without [distance] is not refused: it is answered 202 and
    a job is registered, since the comparison of the parsed distance with
    [NaN] never holds. *)
Theorem area_missing_distance_accepted (fromID randomUUID : string) (s : server) :
  ∃ jobID s',
    area (Some fromID) None randomUUID s =
    (json 202 (resultsUrl (endpoint +:+ "/area-result/" +:+ jobID)), s') ∧
    areaProcessingJobs s' !! jobID = Some {| result := []; isDone := false |}.
Proof.
  eexists. eexists. split; [apply area_accepts|]. simpl. apply lookup_insert_eq.
Qed.

End ServerFacts.

(** ** The model on the sample dataset *)

Section Samples.
Import Example.
Local Open Scope float_scope.

Ltac by_evaluation := vm_compute; reflexivity.

Lemma sin_series_odd x : sin_series (- x) = - sin_series x.
Proof. unfold sin_series. cbv zeta. now rewrite mul_opp_opp, mul_opp_l. Qed.

Lemma cos_clamped_range x : is_finite x = true → (abs (cos_clamped x) <=? 1) = true.
Proof.
  intros Hx. unfold cos_clamped. cbv zeta.
  destruct (abs (cos_series x) <=? 1) eqn:E; [exact E|]. now rewrite Hx.
Qed.

Lemma runtime_conforms : @Math_conforms runtime.
Proof.
  split.
  - apply sin_series_odd.
  - reflexivity.
  - apply cos_clamped_range.
  - reflexivity.
Qed.

(** London and Paris: the two distances are the same number, and London is
    at distance zero from itself. *)
Lemma distance_london_paris :
  distanceBetweenCoord (coordinates london) (coordinates paris) =
  distanceBetweenCoord (coordinates paris) (coordinates london) ∧
  (distanceBetweenCoord {| lat := VNum 51.5074; lon := VNum (-0.1278) |}
                        {| lat := VNum 51.5074; lon := VNum (-0.1278) |} =? 0) = true.
Proof.
  destruct (distanceBetweenCoord_symmetric_zero_on_self runtime_conforms) as (Hsym & _ & Hself).
  split; [apply Hsym|apply Hself; reflexivity].
Defined.

(** [/area?from=<London>&distance=abc]: accepted, and done with no cities. *)
Lemma area_distance_abc :
  ∃ jobID s',
    run addresses initial
        [GET_area (Some london_id) (Some "abc") "7d9f1c1e-5a3b-4c0e-8a57-1f2e3d4c5b6a";
         Resume 0; Resume 1; GET_area_result jobID] =
    ([json 202 (resultsUrl (endpoint +:+ "/area-result/" +:+ jobID)); json 200 (cities [])], s') ∧
    areaProcessingJobs s' !! jobID = Some {| result := []; isDone := true |}.
Proof.
  apply (area_unparsable_distance_completes_empty
           [london; paris; reykjavik] london london_id "abc" _ initial).
  - reflexivity.
  - now left.
  - reflexivity.
Defined.

(** C1: [/area?from=<London>&distance=400] on the sample dataset.  Paris is
    343.5 km from London, more than 400 meters, and yet is the result of the
    job: the scan compares the distances, in meters, with a thousand times
    the requested number. *)
Theorem area_radius_times_thousand :
  (run addresses initial
       [GET_area (Some london_id) (Some "400") "7d9f1c1e-5a3b-4c0e-8a57-1f2e3d4c5b6a";
        Resume 0; Resume 1; GET_area_result FIRST_JOB_ID]).1 =
  [json 202 (resultsUrl "http://127.0.0.1:8080/area-result/2152f96f-50c7-4d76-9e18-f7033bd14428");
   json 200 (cities [paris])] ∧
  (400 <? distanceBetweenCoord (coordinates london) (coordinates paris)) = true ∧
  (distanceBetweenCoord (coordinates london) (coordinates paris) <? 400 * 1000) = true.
Proof. repeat split; by_evaluation. Qed.

(** C2: [/area?from=no-such-guid&distance=10] on the sample dataset.  The
    lookup succeeds and finds no record; the job stays registered and not
    done, nothing is left to run that would complete or delete it, and its
    results URL keeps answering 202. *)
Theorem area_unknown_origin_stays_pending :
  run addresses initial
      [GET_area (Some "no-such-guid") (Some "10") "7d9f1c1e-5a3b-4c0e-8a57-1f2e3d4c5b6a";
       Resume 0; GET_area_result FIRST_JOB_ID; Resume 0; GET_area_result FIRST_JOB_ID] =
  ([json 202 (resultsUrl "http://127.0.0.1:8080/area-result/2152f96f-50c7-4d76-9e18-f7033bd14428");
    respondWithCode 202; respondWithCode 202],
   {| areaProcessingJobs := {[ FIRST_JOB_ID := {| result := []; isDone := false |} ]};
      pending := [] |}).
Proof. by_evaluation. Qed.

(** C4: [/area?from=<London>&distance=400] on the sample dataset, with the
    expiry timer firing before the scan completes.  The timer deletes the
    entry, and the results URL answers 404; the scan then completes and its
    [set] puts the entry back.  From there on the results URL answers 200,
    and nothing is left to run that would delete the entry: the timer of the
    job has been spent. *)
Theorem complete_after_delete_not_noop :
  let s := (run addresses initial
                [GET_area (Some london_id) (Some "400") "7d9f1c1e-5a3b-4c0e-8a57-1f2e3d4c5b6a";
                 Resume 0; Resume 0]).2 in
  pending s = [AwaitScan london 400000 FIRST_JOB_ID] ∧
  areaProcessingJobs s !! FIRST_JOB_ID = None ∧
  (step addresses s (GET_area_result FIRST_JOB_ID)).1 = Some (respondWithCode 404) ∧
  run addresses s [Resume 0; GET_area_result FIRST_JOB_ID] =
  ([json 200 (cities [paris])],
   {| areaProcessingJobs := {[ FIRST_JOB_ID := {| result := [paris]; isDone := true |} ]};
      pending := [] |}).
Proof. repeat split; by_evaluation. Qed.

(** A query on [tags], a field of London that [Object.prototype] has no
    member for. *)
Lemma where_tags_capital :
  map_Forall (λ key _, inherited_key key = false)
             ({[ "tags" := includes (VStr "capital") ]} : key_query) ∧
  (where_ (Some {[ "tags" := includes (VStr "capital") ]}) london = true ↔
   record_matches london {[ "tags" := includes (VStr "capital") ]}).
Proof.
  assert (H : map_Forall (λ key _, inherited_key key = false)
                         ({[ "tags" := includes (VStr "capital") ]} : key_query))
    by (apply map_Forall_singleton; reflexivity).
  split; [exact H|]. exact (matchesKeyQuery_matches london _ H).
Defined.

(** [{ tags: { $equals: null } }] on London.  Counted as a directive,
    [equals(null)] fails on the tags of London, which are not null; the
    compiled predicate does not read it and accepts London on the presence of
    the field.  In the same way [{ $equals: null, $includes: t }] is decided
    by the second operator. *)
Lemma equals_null_not_read :
  where_ (Some {[ "tags" := equals VNull ]}) london = true ∧
  ¬ record_matches_as_written london {[ "tags" := equals VNull ]} ∧
  where_ (Some {[ "tags" := {| op_equals := VNull;
                               op_includes := VStr "no such tag";
                               op_in := VUndefined |} ]}) london = false.
Proof.
  split; [by_evaluation|]. split; [|by_evaluation].
  intros H. destruct (H "tags" (equals VNull) (lookup_singleton_eq _ _)) as [_ Hd].
  specialize (Hd _ eq_refl). vm_compute in Hd. discriminate.
Qed.

(** The runtime with the [NaN]-answering [atan2] is one of those that the
    facts on the distance are proved for. *)
Lemma nan_runtime_conforms : @Math_conforms nan_runtime.
Proof.
  split.
  - apply sin_series_odd.
  - by_evaluation.
  - apply cos_clamped_range.
  - by_evaluation.
Qed.

(** Two points at the two ends of a diameter of the sphere, with latitudes
    and longitudes in range: the sum under the root exceeds 1, the root of
    [1 - a] is [NaN], and so is the distance, in both directions; [==] does
    not hold between the two.  And a point whose latitude is a number too
    large to be converted to radians: its distance to itself is [NaN], not
    zero. *)
Lemma distance_nan_on_diameter :
  let A := {| lat := VNum 8; lon := VNum 0 |} in
  let B := {| lat := VNum (-8); lon := VNum 180 |} in
  let C := {| lat := VNum 1e308; lon := VNum 0 |} in
  is_nan (@distanceBetweenCoord nan_runtime A B) = true ∧
  (@distanceBetweenCoord nan_runtime A B =? @distanceBetweenCoord nan_runtime B A) = false ∧
  is_finite 1e308 = true ∧
  (@distanceBetweenCoord runtime C C =? 0) = false.
Proof. repeat split; by_evaluation. Qed.

(** The first job runs to its end and expires; the next job, the second
    overall, is given the hardcoded identifier again. *)
Lemma hardcoded_identifier_issued_twice :
  (run addresses initial
       [GET_area (Some london_id) (Some "400") "7d9f1c1e-5a3b-4c0e-8a57-1f2e3d4c5b6a";
        Resume 0; Resume 1; Resume 0;
        GET_area (Some london_id) (Some "400") "0b8f3a52-6d1c-4e7a-9f30-2c4d5e6f7a8b"]).1 =
  [json 202 (resultsUrl "http://127.0.0.1:8080/area-result/2152f96f-50c7-4d76-9e18-f7033bd14428");
   json 202 (resultsUrl "http://127.0.0.1:8080/area-result/2152f96f-50c7-4d76-9e18-f7033bd14428")].
Proof. by_evaluation. Qed.

(** While a job is registered, the next one gets the random identifier. *)
Lemma random_identifier_while_registered :
  (run addresses initial
       [GET_area (Some london_id) (Some "400") "7d9f1c1e-5a3b-4c0e-8a57-1f2e3d4c5b6a";
        GET_area (Some london_id) (Some "400") "0b8f3a52-6d1c-4e7a-9f30-2c4d5e6f7a8b"]).1 =
  [json 202 (resultsUrl "http://127.0.0.1:8080/area-result/2152f96f-50c7-4d76-9e18-f7033bd14428");
   json 202 (resultsUrl "http://127.0.0.1:8080/area-result/0b8f3a52-6d1c-4e7a-9f30-2c4d5e6f7a8b")].
Proof. by_evaluation. Qed.

(** [/area?from=<London>] with no [distance]: 202, and a job is registered. *)
Lemma area_without_distance :
  area (Some london_id) None "7d9f1c1e-5a3b-4c0e-8a57-1f2e3d4c5b6a" initial =
  (json 202 (resultsUrl "http://127.0.0.1:8080/area-result/2152f96f-50c7-4d76-9e18-f7033bd14428"),
   {| areaProcessingJobs := {[ FIRST_JOB_ID := {| result := []; isDone := false |} ]};
      pending := [AwaitLookup london_id nan FIRST_JOB_ID] |}).
Proof. by_evaluation. Qed.

End Samples.

(** ** The order of binary64 numbers, and their signs *)

Section OrderFacts.
Local Open Scope float_scope.

Lemma SFcompare_trans_lt_le x y z :
  SFltb x y = true → SFleb y z = true → SFltb x z = true.
Proof.
  unfold SFltb, SFleb.
  destruct x as [sx|sx| |sx mx ex], y as [sy|sy| |sy my ey], z as [sz|sz| |sz mz ez];
    simpl; try discriminate; try (destruct sx, sy, sz; simpl; congruence).
  change (PosDef.Pos.compare_cont Eq) with Pos.compare.
  destruct sx, sy, sz; simpl; try congruence;
    destruct (Z.compare_spec ex ey), (Z.compare_spec ey ez), (Z.compare_spec ex ez);
    try discriminate; try lia; try reflexivity;
    destruct (Pos.compare_spec mx my), (Pos.compare_spec my mz), (Pos.compare_spec mx mz);
    simpl; try discriminate; try lia; try reflexivity.
Qed.

(** Below a bound, hence below every larger bound. *)
Lemma ltb_leb_trans x y z : (x <? y) = true → (y <=? z) = true → (x <? z) = true.
Proof.
  rewrite !FloatAxioms.ltb_spec, FloatAxioms.leb_spec. apply SFcompare_trans_lt_le.
Qed.

Lemma SF_sign_binary_round_aux m e l :
  SF_sign (binary_round_aux prec emax false m e l) = false.
Proof.
  unfold binary_round_aux.
  destruct (shr_fexp prec emax m e l) as [mrs' e'].
  destruct (shr_fexp prec emax _ e' loc_Exact) as [mrs'' e''].
  destruct (shr_m mrs''); [reflexivity| |reflexivity].
  destruct (Z.leb e'' _); reflexivity.
Qed.

Lemma shr_1_div2 mrs : (0 <= shr_m mrs)%Z → shr_m (shr_1 mrs) = (shr_m mrs / 2)%Z.
Proof.
  destruct mrs as [[|[p|p|]|p] r t]; simpl; intros H; try reflexivity; try lia.
  - rewrite Pos2Z.inj_xI. apply Z.div_unique with (r := 1%Z); lia.
  - rewrite Pos2Z.inj_xO. apply Z.div_unique with (r := 0%Z); lia.
Qed.

Lemma iter_pos_shr_1_div n mrs :
  (0 <= shr_m mrs)%Z →
  shr_m (SpecFloat.iter_pos shr_1 n mrs) = (shr_m mrs / 2 ^ Z.pos n)%Z.
Proof.
  revert mrs. induction n as [n IH|n IH|]; intros mrs H; simpl SpecFloat.iter_pos.
  - pose proof (Z.pow_pos_nonneg 2 (Z.pos n) ltac:(lia) ltac:(lia)) as Hp.
    pose proof (shr_1_bounds mrs H) as H1.
    pose proof (iter_pos_shr_1_bounds n (shr_1 mrs) ltac:(lia)) as H2.
    rewrite IH, IH, shr_1_div2 by lia.
    rewrite !Z.div_div by lia. f_equal.
    replace (Z.pos n~1) with (1 + Z.pos n + Z.pos n)%Z by lia.
    rewrite !Z.pow_add_r by lia. ring.
  - pose proof (Z.pow_pos_nonneg 2 (Z.pos n) ltac:(lia) ltac:(lia)) as Hp.
    pose proof (iter_pos_shr_1_bounds n mrs H) as H2.
    rewrite IH, IH by lia.
    rewrite !Z.div_div by lia. f_equal.
    replace (Z.pos n~0) with (Z.pos n + Z.pos n)%Z by lia.
    rewrite !Z.pow_add_r by lia. ring.
  - rewrite shr_1_div2 by lia. reflexivity.
Qed.

(** Rounding a nonzero mantissa at an exponent that is not below the least
    one never gives zero. *)
Lemma shr_fexp_positive m e l :
  (0 < m)%Z → (-1074 <= e)%Z →
  (0 < shr_m (shr_fexp prec emax m e l).1)%Z ∧ (-1074 <= (shr_fexp prec emax m e l).2)%Z.
Proof.
  intros Hm He. unfold shr_fexp, shr.
  destruct m as [|p|p]; try lia. simpl Zdigits2.
  pose proof (digits2_pos_bounds p) as [Hlo _].
  set (d := Z.pos (digits2_pos p)) in *.
  destruct (fexp prec emax (d + e) - e)%Z as [|n|n] eqn:E; simpl;
    rewrite ?shr_m_record_of_loc; try lia.
  rewrite iter_pos_shr_1_div, shr_m_record_of_loc by (rewrite shr_m_record_of_loc; lia).
  assert (Z.pos n <= d - 1)%Z as Hn
    by (unfold fexp, SpecFloat.emin, prec, emax in E; lia).
  split; [|lia].
  apply Z.div_str_pos. split; [apply Z.pow_pos_nonneg; lia|].
  etransitivity; [|exact Hlo]. apply Z.pow_le_mono_r; lia.
Qed.

Lemma binary_round_aux_nonzero s m e l s' :
  (0 < m)%Z → (-1074 <= e)%Z → binary_round_aux prec emax s m e l ≠ S754_zero s'.
Proof.
  intros Hm He. unfold binary_round_aux.
  pose proof (shr_fexp_positive m e l Hm He) as [Hm1 He1].
  destruct (shr_fexp prec emax m e l) as [mrs' e']; simpl in Hm1, He1.
  pose proof (round_nearest_even_bounds (shr_m mrs') (loc_of_shr_record mrs') ltac:(lia)) as Hr.
  assert (0 < round_nearest_even (shr_m mrs') (loc_of_shr_record mrs'))%Z as Hpos.
  { destruct (loc_of_shr_record mrs') as [|[]]; simpl; try destruct (Z.even _); lia. }
  pose proof (shr_fexp_positive _ e' loc_Exact Hpos He1) as [Hm2 _].
  destruct (shr_fexp prec emax _ e' loc_Exact) as [mrs'' e'']; simpl in Hm2.
  destruct (shr_m mrs'') as [|p|p]; try lia.
  destruct (Z.leb e'' _); discriminate.
Qed.

Lemma binary_round_nonzero s m e s' :
  (-1074 <= e)%Z → binary_round prec emax s m e ≠ S754_zero s'.
Proof.
  intros He. unfold binary_round, shl_align.
  set (f := fexp prec emax (Z.pos (digits2_pos m) + e)).
  assert (-1074 <= f)%Z by (unfold f, fexp, SpecFloat.emin, prec, emax; lia).
  destruct (f - e)%Z as [|d|d] eqn:E; apply binary_round_aux_nonzero; lia.
Qed.

Lemma valid_exponent s m e : valid_binary (S754_finite s m e) = true → (-1074 <= e)%Z.
Proof.
  simpl. unfold bounded, canonical_mantissa, fexp, SpecFloat.emin, prec, emax.
  intros H. apply andb_prop in H as [H _]. apply Z.eqb_eq in H. lia.
Qed.

(** A sum whose first term has its sign bit clear is no negative zero. *)
Lemma SFadd_not_negative_zero x y :
  valid_binary x = true → valid_binary y = true →
  SF_sign x = false → SFadd prec emax x y ≠ S754_zero true.
Proof.
  intros Vx Vy Hx.
  destruct x as [sx|sx| |sx mx ex], y as [sy|sy| |sy my ey]; simpl in Hx; subst;
    simpl; try discriminate; try (destruct sy; discriminate).
  pose proof (valid_exponent _ _ _ Vx). pose proof (valid_exponent _ _ _ Vy).
  set (z := (_ + _)%Z). destruct z as [|p|p]; simpl; [discriminate| |];
    apply binary_round_nonzero; lia.
Qed.

Lemma SFsqrt_sign x : x ≠ S754_zero true → SF_sign (SFsqrt prec emax x) = false.
Proof.
  destruct x as [[]|[]| |[] m e]; simpl; try reflexivity; [congruence|]. intros _.
  destruct (SFsqrt_core_binary prec emax (Z.pos m) e) as [[mz ez] lz].
  apply SF_sign_binary_round_aux.
Qed.

Lemma SFmul_self_sign x : SF_sign (SFmul prec emax x x) = false.
Proof.
  destruct x as [s|s| |s m e]; simpl; rewrite ?xorb_nilpotent; try reflexivity.
  apply SF_sign_binary_round_aux.
Qed.

(** The square root of a sum that starts with a square has its sign bit
    clear. *)
Lemma sqrt_square_plus_sign s t : SF_sign (Prim2SF (sqrt (s * s + t))) = false.
Proof.
  rewrite FloatAxioms.sqrt_spec, FloatAxioms.add_spec. apply SFsqrt_sign.
  apply SFadd_not_negative_zero; try apply Prim2SF_valid.
  rewrite FloatAxioms.mul_spec. apply SFmul_self_sign.
Qed.

(** A positive constant times a number that is not below zero is not below
    zero. *)
Lemma mul_not_negative k c m e :
  Prim2SF k = S754_finite false m e → (c <? 0) = false → (k * c <? 0) = false.
Proof.
  rewrite !FloatAxioms.ltb_spec, FloatAxioms.mul_spec. change (Prim2SF 0) with (S754_zero false).
  intros -> H. destruct (Prim2SF c) as [sc|sc| |sc mc ec]; simpl in *;
    try reflexivity; try (destruct sc; try discriminate; reflexivity).
  destruct sc; [discriminate|]. simpl.
  pose proof (SF_sign_binary_round_aux (Z.pos (m * mc)) (e + ec) loc_Exact) as Hs.
  destruct (binary_round_aux _ _ _ _ _ _) as [s'|s'| |s' m' e']; simpl in *; now subst.
Qed.

End OrderFacts.

(** ** The distance is not negative *)

Section SignFacts.
Context {RT : Runtime}.
Local Open Scope float_scope.

Lemma distance_not_below_zero (p1 p2 : point) :
  atan2_not_negative → (distanceBetweenCoord p1 p2 <? 0) = false.
Proof.
  intros Hatan2. unfold distanceBetweenCoord. cbv zeta.
  eapply mul_not_negative; [vm_compute; reflexivity|].
  eapply mul_not_negative; [vm_compute; reflexivity|].
  apply Hatan2. unfold Math_sqrt. apply sqrt_square_plus_sign.
Qed.

(** X1: the distance is never a negative number, for every [Math] whose
    [atan2] is not negative on a first argument that is not. *)
Theorem distanceBetweenCoord_not_negative (p1 p2 : point) :
  atan2_not_negative → (distanceBetweenCoord p1 p2 <? 0) = false.
Proof. apply distance_not_below_zero. Qed.

(** X2: a radius that is zero or negative leaves no city: the job is completed
    with an empty result. *)
Theorem scan_radius_not_positive
  (items : list record) (fromCity : record) (radius : float) (jobID : string) (s : server) :
  atan2_not_negative → (radius <=? 0) = true →
  areaProcessingJobs
    (resume {| delivered := items; failure := None |}
            (AwaitScan fromCity radius jobID) s) !! jobID =
  Some {| result := []; isDone := true |}.
Proof.
  intros Hatan2 Hradius. rewrite resume_scan. simpl. rewrite lookup_insert_eq.
  rewrite filter_none; [reflexivity|]. intros item. unfold area_matcher.
  destruct (_ <? radius) eqn:E; [|apply andb_false_r].
  pose proof (ltb_leb_trans _ _ _ E Hradius) as Hneg.
  now rewrite distance_not_below_zero in Hneg.
Qed.

(** X3: a larger radius never loses a city. *)
Theorem scan_radius_monotone
  (items : list record) (fromCity : record) (radius1 radius2 : float) (city : record) :
  (radius1 <=? radius2) = true →
  In city (List.filter (area_matcher fromCity radius1) items) →
  In city (List.filter (area_matcher fromCity radius2) items).
Proof.
  intros Hle. rewrite !filter_In. intros [Hin Hm]. split; [exact Hin|].
  unfold area_matcher in *. apply andb_prop in Hm as [Hguid Hlt].
  now rewrite Hguid, (ltb_leb_trans _ _ _ Hlt Hle).
Qed.

End SignFacts.

(** ** Key queries, and the read-only routes *)

Section QueryFacts.
Context {RT : Runtime}.

Lemma where_Forall (obj : record) (q : key_query) :
  where_ (Some q) obj = true ↔ map_Forall (λ key f, check_key obj key f = true) q.
Proof.
  unfold where_, matchesKeyQuery. simpl.
  rewrite check_keys_Forall, map_Forall_to_list.
  apply Forall_iff. now intros [key f].
Qed.

(** X4: a query with no keys, or no query at all, accepts every record; a query
    put together from two queries on different keys accepts the records
    that both accept. *)
Theorem where_conjunction (obj : record) :
  where_ None obj = true ∧
  where_ (Some ∅) obj = true ∧
  ∀ q1 q2 : key_query, q1 ##ₘ q2 →
    where_ (Some (q1 ∪ q2)) obj = where_ (Some q1) obj && where_ (Some q2) obj.
Proof.
  split; [reflexivity|]. split; [reflexivity|]. intros q1 q2 Hdisj.
  apply Bool.eq_iff_eq_true. rewrite andb_true_iff, !where_Forall.
  now apply map_Forall_union.
Qed.

(** X5: a record that lacks a queried field, or has [null] there, is rejected
    whatever the operators of the query are; for a field that is not named
    as a member of [Object.prototype]. *)
Theorem where_missing_field (obj : record) (q : key_query) (key : string) (f : key_filter) :
  inherited_key key = false →
  q !! key = Some f → is_nullish (prop obj key) = true → where_ (Some q) obj = false.
Proof.
  intros _ Hq Hnull. apply not_true_is_false. rewrite where_Forall. intros H.
  specialize (H key f Hq). unfold check_key in H. rewrite Hnull in H. discriminate.
Qed.

Lemma check_key_tags (R : record) (tag : string) :
  check_key R "tags" (includes (VStr tag)) = true ↔
  ∃ elems, prop R "tags" = VArr elems ∧ In (VStr tag) elems.
Proof.
  rewrite <- tags_includes_matches, where_Forall, map_Forall_singleton. reflexivity.
Qed.

Lemma check_key_equals_bool (R : record) (key : string) (b : bool) :
  check_key R key (equals (VBool b)) = true ↔
  is_nullish (prop R key) = false ∧ IsLooselyEqual (prop R key) (VBool b) = true.
Proof.
  unfold check_key. simpl.
  destruct (is_nullish (prop R key)); [split; [discriminate|now intros []]|].
  destruct (IsLooselyEqual _ _); simpl; split; auto; now intros [].
Qed.

Lemma IsLooselyEqual_bool (v b : bool) : IsLooselyEqual (VBool v) (VBool b) = Bool.eqb v b.
Proof. now destruct v, b. Qed.

Lemma where_cities_by_tag (R : record) (tag : string) (isActive : option string) :
  where_ (Some (cities_by_tag_query tag isActive)) R = true ↔
  (∃ elems, prop R "tags" = VArr elems ∧ In (VStr tag) elems) ∧
  ∀ a, isActive = Some a →
       is_nullish (prop R "isActive") = false ∧
       IsLooselyEqual (prop R "isActive") (VBool (String.eqb a "true")) = true.
Proof.
  unfold cities_by_tag_query. rewrite where_Forall.
  destruct isActive as [a|].
  - rewrite map_Forall_insert by reflexivity.
    rewrite map_Forall_singleton, check_key_tags, check_key_equals_bool.
    split; [intros [Ht Ha]; split; [exact Ht|now intros ? [= <-]]|].
    intros [Ht Ha]. split; [exact Ht|now apply Ha].
  - rewrite map_Forall_insert by reflexivity. rewrite check_key_tags.
    split; [intros [Ht _]; split; [exact Ht|discriminate]|].
    intros [Ht _]. split; [exact Ht|apply map_Forall_empty].
Qed.

Lemma List_filter_sublist {A} (f : A → bool) (l : list A) : sublist (List.filter f l) l.
Proof.
  induction l as [|x l IH]; simpl; [constructor|].
  destruct (f x); now constructor.
Qed.

End QueryFacts.

Section ReadOnlyFacts.
Context {RT : Runtime} {FMT : Formatting}.

(** X6: [/cities-by-tag] on a readable file answers 200 with records of the
    file, in file order: those that have the tag among their [tags] and,
    when [isActive] is given, whose boolean [isActive] is [true] if the
    parameter reads "true" and [false] if it reads anything else. *)
Theorem cities_by_tag_selects (items : list record) (tag : string) (isActive : option string) :
  ∃ found,
    cities_by_tag {| delivered := items; failure := None |} (Some tag) isActive =
    Some (json 200 (cities found)) ∧
    sublist found items ∧
    ∀ (R : record) (v : bool), prop R "isActive" = VBool v →
      (In R found ↔
       In R items ∧
       (∃ elems, prop R "tags" = VArr elems ∧ In (VStr tag) elems) ∧
       ∀ a, isActive = Some a → v = String.eqb a "true").
Proof.
  eexists. split; [unfold cities_by_tag; now rewrite filter_settles|].
  split; [apply List_filter_sublist|]. intros R v Hactive.
  rewrite filter_In, where_cities_by_tag, Hactive. simpl.
  apply and_iff_compat_l, and_iff_compat_l.
  split; intros H a Ha; specialize (H a Ha).
  - destruct H as [_ H]. rewrite IsLooselyEqual_bool in H. now apply Bool.eqb_prop.
  - split; [reflexivity|]. rewrite IsLooselyEqual_bool, H. apply Bool.eqb_reflx.
Qed.

(** X7: when the file cannot be read or parsed, both read-only routes answer 500
    for every request that has its required parameters; a request that lacks
    one is answered 400 all the same. *)
Theorem read_only_routes_on_failure (items : list record) (err : string) :
  let store := {| delivered := items; failure := Some err |} in
  (∀ tag isActive, cities_by_tag store (Some tag) isActive = Some (respondWithCode 500)) ∧
  (∀ fromID toID, distance store (Some fromID) (Some toID) =
                  Some (reply_of (respondWithCode 500))) ∧
  (∀ isActive, cities_by_tag store None isActive = Some (respondWithCode 400)) ∧
  (∀ fromParam toParam, fromParam = None ∨ toParam = None →
     distance store fromParam toParam = Some (reply_of (respondWithCode 400))).
Proof.
  cbv zeta. split; [|split; [|split]].
  - intros. unfold cities_by_tag. now rewrite filter_settles.
  - intros. unfold distance. now rewrite filter_settles.
  - reflexivity.
  - intros fromParam toParam [-> | ->]; [reflexivity|now destruct fromParam].
Qed.

Lemma where_distance_query (city : record) (fromID toID : string) :
  where_ (Some (distance_query fromID toID)) city =
  match prop city "guid" with
  | VStr g => String.eqb g fromID || String.eqb g toID
  | VUndefined | VNull => false
  | v => SameValueZero (VStr fromID) v || SameValueZero (VStr toID) v
  end.
Proof.
  unfold where_, matchesKeyQuery, distance_query. simpl.
  rewrite map_to_list_singleton. simpl. unfold check_key. simpl.
  destruct (prop city "guid") as [| |b|n|g|l|o]; simpl; try reflexivity.
  rewrite (String.eqb_sym fromID g), (String.eqb_sym toID g), orb_false_r.
  now destruct (_ || _).
Qed.

Lemma where_distance_query_swap (fromID toID : string) (items : list record) :
  List.filter (where_ (Some (distance_query toID fromID))) items =
  List.filter (where_ (Some (distance_query fromID toID))) items.
Proof.
  apply filter_ext. intros city. rewrite !where_distance_query.
  destruct (prop city "guid"); simpl; try reflexivity; apply orb_comm.
Qed.

(** X8: swapping [from] and [to] gives the same distance, with the two cities
    exchanged, and the same status otherwise. *)
Theorem distance_swapped (store : backing_file) (fromParam toParam : option string) :
  (∀ x, Math_sin (- x) = - Math_sin x)%float →
  distance store toParam fromParam =
  match distance store fromParam toParam with
  | Some (distance_json d unit fromCity toCity) => Some (distance_json d unit toCity fromCity)
  | other => other
  end.
Proof.
  intros Hodd. destruct fromParam as [fromID|], toParam as [toID|]; try reflexivity.
  unfold distance. rewrite !filter_settles.
  destruct (failure store); [reflexivity|].
  rewrite where_distance_query_swap. cbv zeta.
  destruct (List.find (λ city, IsStrictlyEqual (prop city "guid") (VStr fromID)) _) as [F|],
           (List.find (λ city, IsStrictlyEqual (prop city "guid") (VStr toID)) _) as [T|];
    try reflexivity.
  now rewrite (distanceBetweenCoord_sym _ _ Hodd).
Qed.

Lemma IsStrictlyEqual_string (v : value) (s : string) :
  IsStrictlyEqual v (VStr s) = true ↔ v = VStr s.
Proof.
  destruct v; simpl; try (split; [discriminate|intros [=]]).
  rewrite String.eqb_eq. split; [now intros ->|now intros [=]].
Qed.

Lemma find_guid_None (fromID toID wanted : string) (items : list record) :
  wanted = fromID ∨ wanted = toID →
  List.find (λ city, IsStrictlyEqual (prop city "guid") (VStr wanted))
            (List.filter (where_ (Some (distance_query fromID toID))) items) = None ↔
  ¬ ∃ city, In city items ∧ prop city "guid" = VStr wanted.
Proof.
  intros Hw. split.
  - intros Hnone (city & Hin & Hguid).
    apply find_none with (x := city) in Hnone.
    + rewrite Hguid in Hnone. simpl in Hnone. now rewrite String.eqb_refl in Hnone.
    + apply filter_In. split; [exact Hin|]. rewrite where_distance_query, Hguid.
      destruct Hw as [-> | ->]; rewrite String.eqb_refl; [reflexivity|apply orb_true_r].
  - intros Hno. destruct (List.find _ _) as [city|] eqn:E; [|reflexivity].
    apply find_some in E as [Hin Hguid]. apply filter_In in Hin as [Hin _].
    apply IsStrictlyEqual_string in Hguid. destruct Hno. now exists city.
Qed.

(** X9: [/distance] on a readable file answers 404 exactly when one of the two
    identifiers is the [guid] of no record; otherwise it answers with the
    first record of each [guid] and the unit "km". *)
Theorem distance_not_found_iff (items : list record) (fromID toID : string) :
  let store := {| delivered := items; failure := None |} in
  (distance store (Some fromID) (Some toID) = Some (reply_of (respondWithCode 404)) ↔
   (¬ ∃ city, In city items ∧ prop city "guid" = VStr fromID) ∨
   (¬ ∃ city, In city items ∧ prop city "guid" = VStr toID)) ∧
  (∀ r, distance store (Some fromID) (Some toID) = Some r →
        r = reply_of (respondWithCode 404) ∨
        ∃ d fromCity toCity,
          r = distance_json d "km" fromCity toCity ∧
          In fromCity items ∧ prop fromCity "guid" = VStr fromID ∧
          In toCity items ∧ prop toCity "guid" = VStr toID).
Proof.
  cbv zeta. unfold distance. rewrite filter_settles. cbn.
  pose proof (find_guid_None fromID toID fromID items (or_introl eq_refl)) as HF.
  pose proof (find_guid_None fromID toID toID items (or_intror eq_refl)) as HT.
  destruct (List.find (λ city, IsStrictlyEqual (prop city "guid") (VStr fromID)) _)
    as [F|] eqn:EF;
    destruct (List.find (λ city, IsStrictlyEqual (prop city "guid") (VStr toID)) _)
    as [T|] eqn:ET.
  - split.
    + split; [discriminate|]. intros [H|H]; [apply HF in H|apply HT in H]; discriminate.
    + intros r [= <-]. right.
      apply find_some in EF as [HinF HgF]. apply find_some in ET as [HinT HgT].
      apply filter_In in HinF as [HinF _]. apply filter_In in HinT as [HinT _].
      apply IsStrictlyEqual_string in HgF, HgT. eauto 10.
  - split; [|intros r [= <-]; now left].
    split; [intros _; right; now apply HT|reflexivity].
  - split; [|intros r [= <-]; now left].
    split; [intros _; left; now apply HF|reflexivity].
  - split; [|intros r [= <-]; now left].
    split; [intros _; left; now apply HF|reflexivity].
Qed.

End ReadOnlyFacts.

(** ** The life of an area job *)

Section JobFacts.
Context {RT : Runtime}.

Lemma run_cons store s i inputs :
  run store s (i :: inputs) =
  let '(res, s') := step store s i in
  let '(sent, s'') := run store s' inputs in
  (match res with Some r => r :: sent | None => sent end, s'').
Proof. reflexivity. Qed.

Lemma area_result_pending jobID s :
  areaProcessingJobs s !! jobID = Some {| result := []; isDone := false |} →
  area_result jobID s = respondWithCode 202.
Proof. unfold area_result. now intros ->. Qed.

(** X10: from the request to the expiry.  For an origin that is in a readable
    file, and an identifier that is not in use: the results URL answers 202
    until the scan has completed, 200 with the result from then on, and 404
    once the expiry timer has run; the server is then as it was before the
    request. *)
Theorem area_job_lifecycle
  (items : list record) (origin : record) (fromID : string) (distanceParam : option string)
  (randomUUID : string) (s : server) :
  let jobID := if Nat.eqb (size (areaProcessingJobs s)) 0 then FIRST_JOB_ID else randomUUID in
  let n := length (pending s) in
  In origin items → prop origin "guid" = VStr fromID →
  areaProcessingJobs s !! jobID = None →
  ∃ found,
    run {| delivered := items; failure := None |} s
        [GET_area (Some fromID) distanceParam randomUUID; GET_area_result jobID;
         Resume n; GET_area_result jobID;
         Resume (S n); GET_area_result jobID;
         Resume n; GET_area_result jobID] =
    ([json 202 (resultsUrl (endpoint +:+ "/area-result/" +:+ jobID));
      respondWithCode 202; respondWithCode 202;
      json 200 (cities found); respondWithCode 404], s).
Proof.
  intros jobID n Hin Hguid Hfresh.
  destruct (find_origin items origin fromID Hin Hguid) as [fromCity Hfind].
  eexists.
  rewrite run_cons. unfold step at 1. rewrite area_accepts. cbv zeta. fold jobID.
  set (s1 := jobs_set jobID {| result := []; isDone := false |} s).
  set (distance := parseInt _).
  rewrite run_cons. unfold step at 1.
  rewrite (area_result_pending jobID) by apply lookup_insert_eq.
  rewrite run_cons. change n with (length (pending s1)).
  rewrite step_resume_last, resume_lookup, Hfind.
  unfold scheduleAreaProcessingJob.
  set (s2 := suspend (ExpiryTimer jobID) s1).
  rewrite run_cons. unfold step at 1.
  rewrite (area_result_pending jobID) by apply lookup_insert_eq.
  rewrite run_cons.
  replace (S (length (pending s1))) with (length (pending s2))
    by (unfold s2, suspend; simpl; rewrite length_app; simpl; lia).
  rewrite step_resume_last, resume_scan.
  rewrite run_cons. unfold step at 1. unfold area_result at 1.
  unfold jobs_set at 1. simpl areaProcessingJobs. rewrite lookup_insert_eq. simpl.
  change (length (pending s)) with (length (pending s1)).
  rewrite list_lookup_middle by reflexivity. rewrite delete_middle, app_nil_r. simpl.
  unfold area_result, jobs_delete. simpl. rewrite lookup_delete_eq.
  rewrite !delete_insert_eq, delete_id by exact Hfresh.
  now destruct s.
Qed.

(** X11: a waiting piece of code touches the entry of its own job only. *)
Theorem resume_other_job (store : backing_file) (t : task) (s : server) (jobID : string) :
  jobID ≠ task_job t →
  areaProcessingJobs (resume store t s) !! jobID = areaProcessingJobs s !! jobID.
Proof.
  intros Hne. destruct t as [fromID distance id|fromCity distance id|id]; simpl in *.
  - rewrite filter_settles. destruct (failure store); simpl.
    + now rewrite lookup_delete_ne.
    + now destruct (List.find _ _).
  - rewrite filter_settles. destruct (failure store); simpl.
    + now rewrite lookup_delete_ne.
    + now rewrite lookup_insert_ne.
  - now rewrite lookup_delete_ne.
Qed.

Lemma step_sound store s i :
  map_Forall (λ _, job_sound store) (areaProcessingJobs s) →
  map_Forall (λ _, job_sound store) (areaProcessingJobs (step store s i).2).
Proof.
  intros H. destruct i as [fromParam distanceParam randomUUID|areaJobID|i]; simpl.
  - unfold area. destruct fromParam as [fromID|]; [|exact H].
    rewrite eqb_nan_r. simpl. apply map_Forall_insert_2; [|exact H].
    split; [reflexivity|now intros city []].
  - exact H.
  - destruct (pending s !! i) as [t|]; [|exact H]. simpl.
    destruct t as [fromID distance id|fromCity distance id|id]; simpl.
    + rewrite filter_settles. destruct (failure store); simpl.
      * now apply map_Forall_delete.
      * now destruct (List.find _ _).
    + rewrite filter_settles. destruct (failure store); simpl.
      * now apply map_Forall_delete.
      * apply map_Forall_insert_2; [|exact H].
        split; [discriminate|]. simpl. intros city Hin. now apply filter_In in Hin.
    + now apply map_Forall_delete.
Qed.

(** X12: whatever the requests and the order of the turns: a job that is not
    done has an empty result, and the result of a job holds records of the
    file only. *)
Theorem registry_sound (store : backing_file) (inputs : list input) :
  map_Forall (λ _ j, (isDone j = false → result j = []) ∧
                     ∀ city, In city (result j) → In city (delivered store))
             (areaProcessingJobs (run store initial inputs).2).
Proof.
  change (map_Forall (λ _, job_sound store) (areaProcessingJobs (run store initial inputs).2)).
  assert (map_Forall (λ _, job_sound store) (areaProcessingJobs initial)) as Hinit
    by apply map_Forall_empty.
  revert Hinit. generalize initial.
  induction inputs as [|i inputs IH]; intros s Hs; [exact Hs|].
  rewrite run_cons. pose proof (step_sound store s i Hs) as Hstep.
  destruct (step store s i) as [res s1]. specialize (IH s1 Hstep).
  now destruct (run store s1 inputs) as [sent s2].
Qed.

(** X13: the result of a scan leaves out every record that has the [guid] of the
    origin, holds records of the file only, and repeats none if the file
    repeats none. *)
Theorem scan_excludes_origin
  (items : list record) (fromCity : record) (guid : string) (radius : float)
  (jobID : string) (s : server) :
  prop fromCity "guid" = VStr guid →
  ∃ found,
    areaProcessingJobs
      (resume {| delivered := items; failure := None |}
              (AwaitScan fromCity radius jobID) s) !! jobID =
    Some {| result := found; isDone := true |} ∧
    (∀ city, In city found → In city items ∧ prop city "guid" ≠ VStr guid) ∧
    (NoDup items → NoDup found).
Proof.
  intros Hguid. eexists. split; [rewrite resume_scan; apply lookup_insert_eq|].
  split.
  - intros city Hin. apply filter_In in Hin as [Hin Hm]. split; [exact Hin|].
    intros Hsame. unfold area_matcher in Hm. rewrite Hsame, Hguid in Hm.
    unfold IsLooselyEqual in Hm. simpl in Hm. now rewrite String.eqb_refl in Hm.
  - rewrite !NoDup_ListNoDup. apply List.NoDup_filter.
Qed.

End JobFacts.

(** ** Authentication *)

Section AuthFacts.
Context {RT : Runtime} {FMT : Formatting}.

Lemma app_area_input store TEST_TOKEN s ev :
  (app store TEST_TOKEN s ev).2 =
  match area_input TEST_TOKEN ev with
  | Some i => (step store s i).2
  | None => s
  end.
Proof.
  destruct ev as [[header target]|i]; simpl; [|reflexivity].
  destruct (authenticated TEST_TOKEN header); [|reflexivity].
  destruct target; simpl; try reflexivity.
  now destruct (area _ _ _ _).
Qed.

(** X14: requests without the expected [Authorization] header are answered 401,
    and neither they nor the read-only routes leave a trace: after any
    sequence of events the registry and the waiting code are what the
    authenticated requests to the area routes and the turns alone make of
    them. *)
Theorem serve_unauthenticated_invisible
  (store : backing_file) (TEST_TOKEN : option string) (s : server) (events : list event) :
  (serve store TEST_TOKEN s events).2 =
  (run store s (omap (area_input TEST_TOKEN) events)).2 ∧
  ∀ req, authenticated TEST_TOKEN (authorization req) = false →
         app store TEST_TOKEN s (Request req) = (Some (reply_of (respondWithCode 401)), s).
Proof.
  split.
  - revert s. induction events as [|ev events IH]; intros s; [reflexivity|].
    simpl serve. pose proof (app_area_input store TEST_TOKEN s ev) as Happ.
    destruct (app store TEST_TOKEN s ev) as [res s1]. simpl in Happ. subst s1.
    specialize (IH (match area_input TEST_TOKEN ev with
                    | Some i => (step store s i).2 | None => s end)).
    destruct (serve store TEST_TOKEN _ events) as [sent s2]. simpl in IH |- *. rewrite IH.
    simpl omap. destruct (area_input TEST_TOKEN ev) as [i|]; [|reflexivity].
    rewrite run_cons. destruct (step store s i) as [res' s1]. simpl.
    now destruct (run store s1 _).
  - intros req Hreq. simpl. now rewrite Hreq.
Qed.

End AuthFacts.

(** ** The further properties on the sample dataset *)

Section MoreSamples.
Import Example.
Local Open Scope float_scope.

Lemma atan2_guarded_not_negative : @atan2_not_negative guarded_runtime.
Proof.
  intros y x Hy. simpl. unfold atan2_guarded. cbv zeta. rewrite Hy. simpl.
  now destruct (atan2_series y x <? 0) eqn:E.
Qed.

(** London and Reykjavik under the guarded runtime. *)
Lemma distance_london_reykjavik_not_negative :
  (@distanceBetweenCoord guarded_runtime (coordinates london) (coordinates reykjavik) <? 0)
  = false.
Proof.
  apply (@distanceBetweenCoord_not_negative guarded_runtime), atan2_guarded_not_negative.
Defined.

(** A scan around London with radius zero. *)
Lemma scan_radius_zero :
  areaProcessingJobs
    (@resume guarded_runtime addresses (AwaitScan london 0 FIRST_JOB_ID) initial)
    !! FIRST_JOB_ID =
  Some {| result := []; isDone := true |}.
Proof.
  apply (@scan_radius_not_positive guarded_runtime [london; paris; reykjavik]).
  - apply atan2_guarded_not_negative.
  - reflexivity.
Defined.

(** Paris is within 400 km of London, hence within 2000 km. *)
Lemma paris_within_larger_radius :
  In paris (List.filter (area_matcher london 2000000) [london; paris; reykjavik]).
Proof.
  apply (scan_radius_monotone [london; paris; reykjavik] london 400000 2000000 paris).
  - reflexivity.
  - apply (proj2 (filter_In (area_matcher london 400000) paris [london; paris; reykjavik])).
    split; [right; left; reflexivity|vm_compute; reflexivity].
Defined.

(** No sample record has a population. *)
Lemma where_population :
  where_ (Some {[ "population" := equals (VNum 9000000) ]}) london = false.
Proof.
  apply (where_missing_field london _ "population" (equals (VNum 9000000)));
    reflexivity.
Defined.

(** From Paris to London as from London to Paris. *)
Lemma distance_paris_london :
  distance addresses (Some paris_id) (Some london_id) =
  match distance addresses (Some london_id) (Some paris_id) with
  | Some (distance_json d unit fromCity toCity) => Some (distance_json d unit toCity fromCity)
  | other => other
  end.
Proof. apply distance_swapped, sin_series_odd. Defined.

(** The first job of a server, from the request to the expiry. *)
Lemma first_job_lifecycle :
  ∃ found,
    run addresses initial
        [GET_area (Some london_id) (Some "400") "7d9f1c1e-5a3b-4c0e-8a57-1f2e3d4c5b6a";
         GET_area_result FIRST_JOB_ID;
         Resume 0; GET_area_result FIRST_JOB_ID;
         Resume 1; GET_area_result FIRST_JOB_ID;
         Resume 0; GET_area_result FIRST_JOB_ID] =
    ([json 202 (resultsUrl (endpoint +:+ "/area-result/" +:+ FIRST_JOB_ID));
      respondWithCode 202; respondWithCode 202;
      json 200 (cities found); respondWithCode 404], initial).
Proof.
  apply (area_job_lifecycle [london; paris; reykjavik] london london_id (Some "400")
                            "7d9f1c1e-5a3b-4c0e-8a57-1f2e3d4c5b6a" initial).
  - now left.
  - reflexivity.
  - reflexivity.
Defined.

(** The expiry timer of one job leaves the entry of another alone. *)
Lemma expiry_of_other_job :
  areaProcessingJobs
    (resume addresses (ExpiryTimer "0b8f3a52-6d1c-4e7a-9f30-2c4d5e6f7a8b")
            (jobs_set FIRST_JOB_ID {| result := [paris]; isDone := true |} initial))
    !! FIRST_JOB_ID =
  areaProcessingJobs
    (jobs_set FIRST_JOB_ID {| result := [paris]; isDone := true |} initial) !! FIRST_JOB_ID.
Proof. apply resume_other_job. discriminate. Defined.

(** A scan around London never returns London. *)
Lemma scan_around_london :
  ∃ found,
    areaProcessingJobs
      (resume addresses (AwaitScan london 400000 FIRST_JOB_ID) initial) !! FIRST_JOB_ID =
    Some {| result := found; isDone := true |} ∧
    (∀ city, In city found →
             In city [london; paris; reykjavik] ∧ prop city "guid" ≠ VStr london_id) ∧
    (NoDup [london; paris; reykjavik] → NoDup found).
Proof.
  apply (scan_excludes_origin [london; paris; reykjavik] london london_id). reflexivity.
Defined.

End MoreSamples.
